(** * Library3DView: layer grouping, navigation, particle field, proximity

    A shallow embedding of the spatial layer navigator found in
    [src/components/BookForm.tsx] (component [Library3DView]) together with
    the properties its description states about it, followed by the parts
    of the application that feed and mirror it: the book list kept by
    [src/App.tsx] and the category table of
    [src/components/CategoryView.tsx].

    Conventions of the embedding
    - JavaScript strings are [string]s (a name is compared only for equality,
      for being a canonical array index and for being a member of
      [Object.prototype], all of which the byte encoding preserves).
    - JavaScript numbers that hold indices are [Z]; numbers that hold
      coordinates, depths and opacities are exact rationals [Q]: every
      operation of the source is kept, with rounding idealised away.
    - A plain object used as a map is the list of its own properties in
      creation order, read through the prototype chain.
    - State held in React hooks is passed explicitly. *)

From Stdlib Require Import List String Ascii Bool Arith ZArith NArith QArith.
From Stdlib Require Import Lia Lqa Permutation Sorted.
Import ListNotations.

Set Implicit Arguments.

(** ** Results of code that may throw *)

Inductive result (A : Type) : Type :=
| Ok (a : A)
| TypeError.

Arguments Ok {A} a.
Arguments TypeError {A}.

Definition bind {A B : Type} (r : result A) (k : A -> result B) : result B :=
  match r with
  | Ok a => k a
  | TypeError => TypeError
  end.

Notation "x <- r ;; k" := (bind r (fun x => k))
  (at level 61, r at next level, right associativity).

(** ** Plain objects used as string-keyed maps *)

Module JsObject.

Section Obj.
Variable V : Type.

(** Own enumerable properties, in the order they were created. *)
Definition t := list (string * V).

Definition empty : t := [].

Fixpoint own_get (o : t) (k : string) : option V :=
  match o with
  | [] => None
  | (k', v) :: rest => if String.eqb k' k then Some v else own_get rest k
  end.

(** [o[k] = v]: an existing own property keeps its place, a new one is
    created last. *)
Fixpoint own_set (o : t) (k : string) (v : V) : t :=
  match o with
  | [] => [(k, v)]
  | (k', v') :: rest =>
      if String.eqb k' k then (k', v) :: rest
      else (k', v') :: own_set rest k v
  end.

Definition keys (o : t) : list string := map fst o.
End Obj.

(** The properties every plain object inherits from [Object.prototype];
    each of them holds a function or (for [__proto__]) the prototype object
    itself, so each is truthy and none is an array. *)
Definition prototype_names : list string :=
  [ "constructor"; "hasOwnProperty"; "isPrototypeOf"; "propertyIsEnumerable";
    "toLocaleString"; "toString"; "valueOf";
    "__defineGetter__"; "__defineSetter__"; "__lookupGetter__";
    "__lookupSetter__"; "__proto__" ]%string.

Definition inherited (k : string) : bool :=
  existsb (String.eqb k) prototype_names.

(** Canonical array indices: the decimal numerals of 0 .. 2^32 - 2 without
    leading zeros.  Own properties with such names are enumerated first. *)
Definition digit_of (c : ascii) : option N :=
  let n := N_of_ascii c in
  if (48 <=? n)%N && (n <=? 57)%N then Some (n - 48)%N else None.

Fixpoint digits_val (s : string) (acc : N) : option N :=
  match s with
  | EmptyString => Some acc
  | String c rest =>
      match digit_of c with
      | Some d => digits_val rest (acc * 10 + d)%N
      | None => None
      end
  end.

Definition array_index (s : string) : option N :=
  match s with
  | EmptyString => None
  | String c rest =>
      if Ascii.eqb c "0"%char && negb (String.eqb rest EmptyString) then None
      else match digits_val s 0%N with
           | Some n => if (n <=? 4294967294)%N then Some n else None
           | None => None
           end
  end.

Definition is_index (s : string) : bool :=
  match array_index s with Some _ => true | None => false end.

Definition index_of (s : string) : N :=
  match array_index s with Some n => n | None => 0%N end.


Section Enumerate.
Variable V : Type.

Fixpoint insert_index (e : string * V) (l : list (string * V)) :=
  match l with
  | [] => [e]
  | h :: rest =>
      if (index_of (fst e) <=? index_of (fst h))%N then e :: h :: rest
      else h :: insert_index e rest
  end.

Definition ascending (l : list (string * V)) : list (string * V) :=
  fold_right insert_index [] l.

(** [Object.entries(o)]: array-index names in ascending numeric order,
    then every other name in creation order. *)
Definition entries (o : t V) : list (string * V) :=
  ascending (filter (fun e => is_index (fst e)) o)
  ++ filter (fun e => negb (is_index (fst e))) o.
End Enumerate.

End JsObject.

(** ** Array.prototype.sort with a comparator

    The sort is stable; for a consistent comparator its result is the one
    stable insertion computes: [a] is kept before [b] unless
    [cmp a b > 0]. *)

Section ArraySort.
Variable A : Type.
Variable cmp : A -> A -> Z.

Fixpoint sort_insert (e : A) (l : list A) : list A :=
  match l with
  | [] => [e]
  | h :: rest =>
      if (0 <? cmp e h)%Z then h :: sort_insert e rest
      else e :: h :: rest
  end.

Definition array_sort (l : list A) : list A :=
  fold_right sort_insert [] l.
End ArraySort.

(** ** LayerGrouper: [booksByCategory] *)

Module LayerGrouper.

Record Book : Type := mkBook {
  id : string;
  title : string;
  author : string;
  category : option string;
  coverUrl : option string
}.

Definition Bucket : Type := (string * list Book)%type.

Definition bucket_name (b : Bucket) : string := fst b.
Definition bucket_items (b : Bucket) : list Book := snd b.
Definition bucket_size (b : Bucket) : nat := List.length (snd b).

Definition defaultCats : list string :=
  [ "商業理財"; "心理勵志"; "文學小說"; "人文社科"; "科幻小說"; "自我成長" ]%string.

Definition uncategorized : string := "未分類"%string.

(** [book.category || '未分類']: an absent and an empty category are both
    falsy. *)
Definition cat_of (b : Book) : string :=
  match category b with
  | None => uncategorized
  | Some c => if String.eqb c EmptyString then uncategorized else c
  end.

(** [defaultCats.forEach(c => groups[c] = [])] *)
Definition seed_groups : JsObject.t (list Book) :=
  fold_left (fun g c => JsObject.own_set g c []) defaultCats (JsObject.empty _).

(** The body of [books.forEach]: an own bucket is truthy and is pushed to; a
    name found only on the prototype is truthy too, is not re-bound, and has
    no [push], which throws; any other name gets a fresh bucket first. *)
Definition place (groups : JsObject.t (list Book)) (book : Book)
  : result (JsObject.t (list Book)) :=
  let cat := cat_of book in
  match JsObject.own_get groups cat with
  | Some items => Ok (JsObject.own_set groups cat (items ++ [book]))
  | None =>
      if JsObject.inherited cat then TypeError
      else Ok (JsObject.own_set groups cat [book])
  end.

Fixpoint place_all (groups : JsObject.t (list Book)) (books : list Book)
  : result (JsObject.t (list Book)) :=
  match books with
  | [] => Ok groups
  | b :: rest => g <- place groups b ;; place_all g rest
  end.

(** [(a, b) => b[1].length - a[1].length] *)
Definition by_size_desc (a b : Bucket) : Z :=
  (Z.of_nat (bucket_size b) - Z.of_nat (bucket_size a))%Z.

Definition booksByCategory (books : list Book) : result (list Bucket) :=
  g <- place_all seed_groups books ;;
  Ok (array_sort by_size_desc (JsObject.entries g)).

Definition all_items (bs : list Bucket) : list Book := flat_map bucket_items bs.

Definition total_size (bs : list Bucket) : nat :=
  fold_right (fun b n => (bucket_size b + n)%nat) 0%nat bs.



(** Every item sits in the bucket that carries its category. *)
Definition Routed (g : list Bucket) : Prop :=
  forall bucket, In bucket g ->
  forall b, In b (bucket_items bucket) -> cat_of b = bucket_name bucket.

(** No own property shadows an inherited one. *)
Definition no_inherited_keys (g : JsObject.t (list Book)) : Prop :=
  Forall (fun k => JsObject.inherited k = false) (JsObject.keys g).


End LayerGrouper.

(** ** NavigationStateMachine: [goToLayer], [handleNext], [handlePrev] *)

Module Navigation.

(** The hook state the navigation handlers read and write, and the number
    of [setTimeout(() => setIsWarping(false), 900)] callbacks still pending
    in the host's timer queue. *)
Record State : Type := mkState {
  activeLayer : Z;
  isWarping : bool;
  isNavOpen : bool;
  timeouts : nat
}.

Definition initial : State :=
  {| activeLayer := 0; isWarping := false; isNavOpen := false; timeouts := 0 |}.

(** [setIsWarping(true); setTimeout(() => setIsWarping(false), 900)]: the
    identifier [setTimeout] returns is dropped. *)
Definition triggerWarp (s : State) : State :=
  {| activeLayer := activeLayer s;
     isWarping := true;
     isNavOpen := isNavOpen s;
     timeouts := S (timeouts s) |}.

Definition setActiveLayer (index : Z) (s : State) : State :=
  {| activeLayer := index;
     isWarping := isWarping s;
     isNavOpen := isNavOpen s;
     timeouts := timeouts s |}.

Definition setIsNavOpen (b : bool) (s : State) : State :=
  {| activeLayer := activeLayer s;
     isWarping := isWarping s;
     isNavOpen := b;
     timeouts := timeouts s |}.

Definition goToLayer (innerWidth : Z) (index : Z) (s : State) : State :=
  if (index =? activeLayer s)%Z || isWarping s then s
  else
    let s1 := setActiveLayer index (triggerWarp s) in
    if (innerWidth <? 768)%Z then setIsNavOpen false s1 else s1.

Definition handleNext (bucketCount : nat) (innerWidth : Z) (s : State) : State :=
  if (activeLayer s <? Z.of_nat bucketCount - 1)%Z
  then goToLayer innerWidth (activeLayer s + 1)%Z s
  else s.

Definition handlePrev (innerWidth : Z) (s : State) : State :=
  if (0 <? activeLayer s)%Z
  then goToLayer innerWidth (activeLayer s - 1)%Z s
  else s.

(** Expiry of the oldest pending timeout: its callback is
    [setIsWarping(false)]. *)
Definition warpTimeout (s : State) : State :=
  match timeouts s with
  | O => s
  | S n =>
      {| activeLayer := activeLayer s;
         isWarping := false;
         isNavOpen := isNavOpen s;
         timeouts := n |}
  end.

Inductive Op : Type :=
| GoTo (index : Z)
| Next
| Prev
| Expire.

Definition step (bucketCount : nat) (innerWidth : Z) (op : Op) (s : State)
  : State :=
  match op with
  | GoTo index => goToLayer innerWidth index s
  | Next => handleNext bucketCount innerWidth s
  | Prev => handlePrev innerWidth s
  | Expire => warpTimeout s
  end.

(** The states observed after each operation of a run, oldest first. *)
Fixpoint trace (bucketCount : nat) (innerWidth : Z) (ops : list Op) (s : State)
  : list State :=
  match ops with
  | [] => []
  | op :: rest =>
      let s' := step bucketCount innerWidth op s in
      s' :: trace bucketCount innerWidth rest s'
  end.

Definition run (bucketCount : nat) (innerWidth : Z) (ops : list Op) (s : State)
  : State :=
  fold_left (fun st op => step bucketCount innerWidth op st) ops s.

Definition in_range (bucketCount : nat) (s : State) : Prop :=
  (0 <= activeLayer s < Z.of_nat bucketCount)%Z.

(** The indices the view itself passes to [goToLayer]: positions of the
    rendered bucket list. *)
Definition rendered (bucketCount : nat) (op : Op) : Prop :=
  match op with
  | GoTo index => (0 <= index < Z.of_nat bucketCount)%Z
  | _ => True
  end.

End Navigation.

(** ** ProximityTrigger: [handleMouseMove] *)

Definition Qlt_bool (a b : Q) : bool := negb (Qle_bool b a).

Module Proximity.

Definition near : Q := 40.
Definition far : Q := 120.

(** The new value of [isHoveringEdge] after a pointer move at [clientX]. *)
Definition handleMouseMove (isNavOpen : bool) (clientX : Q)
  (isHoveringEdge : bool) : bool :=
  if isNavOpen then isHoveringEdge
  else if Qlt_bool clientX near then true
  else if Qlt_bool far clientX then false
  else isHoveringEdge.

(** The visibility after each pointer move of a sequence. *)
Fixpoint visibilities (isNavOpen : bool) (xs : list Q) (isHoveringEdge : bool)
  : list bool :=
  match xs with
  | [] => []
  | x :: rest =>
      let v := handleMouseMove isNavOpen x isHoveringEdge in
      v :: visibilities isNavOpen rest v
  end.

End Proximity.

(** ** ParticleField: [createParticles] and [draw] *)

Module ParticleField.

Record Particle : Type := mkParticle {
  x : Q;
  y : Q;
  z : Q;
  size : Q;
  speed : Q
}.

Definition particleCount : nat := 150.
Definition MAX_DEPTH : Q := 2000.
Definition FOCAL : Q := 1000.

Section Create.
(** [random n] is the value of the [n]-th call of [Math.random()] made by
    [createParticles]; [width] and [height] are those of the canvas. *)
Variable random : nat -> Q.
Variables width height : Q.

Definition newParticle (i : nat) : Particle :=
  {| x := (random (5 * i)%nat - (1 # 2)) * width * 2;
     y := (random (5 * i + 1)%nat - (1 # 2)) * height * 2;
     z := random (5 * i + 2)%nat * 2000;
     size := random (5 * i + 3)%nat * 2 + 1;
     speed := random (5 * i + 4)%nat * 2 + 1 |}.

Definition createParticles : list Particle :=
  map newParticle (seq 0 particleCount).
End Create.

Definition multiplier (isWarping : bool) : Q := if isWarping then 12 else 1.

(** [p.z -= p.speed * (isWarping ? 12 : 1)] *)
Definition advance (isWarping : bool) (p : Particle) : Q :=
  z p - speed p * multiplier isWarping.

(** [if (p.z <= 0) p.z = 2000] *)
Definition recycle (depth : Q) : Q :=
  if Qle_bool depth 0 then 2000 else depth.

Definition move (isWarping : bool) (p : Particle) : Particle :=
  {| x := x p;
     y := y p;
     z := recycle (advance isWarping p);
     size := size p;
     speed := speed p |}.

(** [1000 / p.z]; a zero divisor yields no finite number. *)
Definition perspective (depth : Q) : option Q :=
  if Qeq_bool depth 0 then None else Some (FOCAL / depth).

(** What [draw] paints for one particle: a disc and, while warping, a line
    to the centre. *)
Record Dot : Type := mkDot {
  px : Q;
  py : Q;
  radius : Q;
  alpha : Q;
  fillOpacity : Q;
  strokeOpacity : option Q
}.

Definition project (isWarping : bool) (width height : Q) (p : Particle)
  : option Dot :=
  let centerX := width / 2 in
  let centerY := height / 2 in
  match perspective (z p) with
  | None => None
  | Some k =>
      let px := x p * k + centerX in
      let py := y p * k + centerY in
      if Qlt_bool 0 px && Qlt_bool px width
         && Qlt_bool 0 py && Qlt_bool py height
      then
        let a := (2000 - z p) / 2000 in
        Some {| px := px;
                py := py;
                radius := size p * k;
                alpha := a;
                fillOpacity := a * (1 # 2);
                strokeOpacity :=
                  if isWarping then Some (a * (15 # 100)) else None |}
      else None
  end.

(** One call of [draw]: every particle is moved, then projected. *)
Definition draw (isWarping : bool) (width height : Q) (ps : list Particle)
  : list Particle * list (option Dot) :=
  let ps' := map (move isWarping) ps in
  (ps', map (project isWarping width height) ps').

(** The field after a run of frames, one warp flag per frame. *)
Definition frames (width height : Q) (flags : list bool) (ps : list Particle)
  : list Particle :=
  fold_left (fun field w => fst (draw w width height field)) flags ps.

(** The part of a particle the tick has no business with. *)
Definition shape (p : Particle) : Q * Q * Q * Q := (x p, y p, size p, speed p).

Definition visible_depth (p : Particle) : Prop := 0 < z p /\ z p <= MAX_DEPTH.

Definition unit_interval (random : nat -> Q) : Prop :=
  forall n, 0 <= random n /\ random n < 1.

(** What holds of every particle from creation on. *)
Definition launched (p : Particle) : Prop :=
  0 <= z p /\ z p <= MAX_DEPTH /\ 1 <= speed p.

(** The projected point lies strictly inside the canvas. *)
Definition on_canvas (width height : Q) (p : Particle) : Prop :=
  0 < x p * (FOCAL / z p) + width / 2
  /\ x p * (FOCAL / z p) + width / 2 < width
  /\ 0 < y p * (FOCAL / z p) + height / 2
  /\ y p * (FOCAL / z p) + height / 2 < height.

End ParticleField.

(** ** Mounting, effects and teardown *)

Module Lifecycle.

(** The view together with the host resources its effects hold: the
    [mousemove] and [resize] listeners, the pending animation frame request,
    and the pending timeouts counted in the navigation state.  [ticks]
    counts the calls of [draw]; [staleCalls] counts the calls of a state
    setter made after the view was unmounted. *)
Record Runtime : Type := mkRuntime {
  nav : Navigation.State;
  mounted : bool;
  hasEntered : bool;
  mousemove : bool;
  resize : bool;
  frame : bool;
  ticks : nat;
  staleCalls : nat
}.

Definition mount : Runtime :=
  {| nav := Navigation.initial; mounted := true; hasEntered := false;
     mousemove := false; resize := false; frame := false;
     ticks := 0; staleCalls := 0 |}.

Definition with_nav (n : Navigation.State) (r : Runtime) : Runtime :=
  {| nav := n; mounted := mounted r; hasEntered := hasEntered r;
     mousemove := mousemove r; resize := resize r; frame := frame r;
     ticks := ticks r; staleCalls := staleCalls r |}.

(** Set-up of the particle effect, for a canvas whose 2D context is
    available: [addEventListener('resize')], [createParticles()], [draw()],
    whose last statement requests the next frame. *)
Definition particle_setup (r : Runtime) : Runtime :=
  {| nav := nav r; mounted := mounted r; hasEntered := hasEntered r;
     mousemove := mousemove r; resize := true; frame := true;
     ticks := S (ticks r); staleCalls := staleCalls r |}.

(** Its cleanup: [removeEventListener('resize')],
    [cancelAnimationFrame(animationFrameId)]. *)
Definition particle_cleanup (r : Runtime) : Runtime :=
  {| nav := nav r; mounted := mounted r; hasEntered := hasEntered r;
     mousemove := mousemove r; resize := false; frame := false;
     ticks := ticks r; staleCalls := staleCalls r |}.

(** The particle effect depends on [isWarping]: a render in which the flag
    changed cleans the effect up and sets it up again. *)
Definition rerender (before : bool) (r : Runtime) : Runtime :=
  if hasEntered r && negb (Bool.eqb before (Navigation.isWarping (nav r)))
  then particle_setup (particle_cleanup r)
  else r.

(** Click on the entrance portal: [setHasEntered(true)], after which both
    effects are set up. *)
Definition enter (r : Runtime) : Runtime :=
  if mounted r && negb (hasEntered r) then
    particle_setup
      {| nav := nav r; mounted := true; hasEntered := true;
         mousemove := true; resize := resize r; frame := frame r;
         ticks := ticks r; staleCalls := staleCalls r |}
  else r.

(** A navigation handler can only be invoked through the rendered view. *)
Definition navigate (bucketCount : nat) (innerWidth : Z) (op : Navigation.Op)
  (r : Runtime) : Runtime :=
  if mounted r then
    rerender (Navigation.isWarping (nav r))
      (with_nav (Navigation.step bucketCount innerWidth op (nav r)) r)
  else r.

(** The host runs the oldest pending timeout.  On a mounted view the setter
    takes effect and the view re-renders; on an unmounted one the callback
    still runs and calls the setter of a view that is gone. *)
Definition expire (r : Runtime) : Runtime :=
  match Navigation.timeouts (nav r) with
  | O => r
  | S n =>
      if mounted r then
        rerender (Navigation.isWarping (nav r))
          (with_nav (Navigation.warpTimeout (nav r)) r)
      else
        {| nav := Navigation.mkState (Navigation.activeLayer (nav r))
                    (Navigation.isWarping (nav r))
                    (Navigation.isNavOpen (nav r)) n;
           mounted := false; hasEntered := hasEntered r;
           mousemove := mousemove r; resize := resize r; frame := frame r;
           ticks := ticks r; staleCalls := S (staleCalls r) |}
  end.

(** The host runs the requested animation frame, if one is pending: [draw]
    runs and requests the next one. *)
Definition animate (r : Runtime) : Runtime :=
  if frame r then
    {| nav := nav r; mounted := mounted r; hasEntered := hasEntered r;
       mousemove := mousemove r; resize := resize r; frame := true;
       ticks := S (ticks r); staleCalls := staleCalls r |}
  else r.

(** Unmounting runs the cleanup of every effect that was set up: the
    [mousemove] listener, the [resize] listener and the animation frame.
    No cleanup refers to the timeouts. *)
Definition unmount (r : Runtime) : Runtime :=
  {| nav := nav r; mounted := false; hasEntered := hasEntered r;
     mousemove := false; resize := false; frame := false;
     ticks := ticks r; staleCalls := staleCalls r |}.

(** What the host may still deliver after teardown. *)
Inductive Late : Type :=
| LateTimeout
| LateFrame.

Definition late (e : Late) (r : Runtime) : Runtime :=
  match e with
  | LateTimeout => expire r
  | LateFrame => animate r
  end.

Definition after (es : list Late) (r : Runtime) : Runtime :=
  fold_left (fun st e => late e st) es r.

End Lifecycle.

(** ** Compositor: the style of each layer and the navigation buttons *)

Module Compositor.

(** The inline style and the classes the render gives the layer at list
    position [idx]. *)
Record LayerStyle : Type := mkLayerStyle {
  zOffset : Z;
  opacity : Q;
  scale : Q;
  blur : Z;
  pointerEvents : bool;
  warpBlur : bool
}.

Definition layerStyle (isWarping : bool) (activeLayer idx : Z) : LayerStyle :=
  {| zOffset := (idx - activeLayer) * 1200;
     opacity :=
       if (idx =? activeLayer)%Z then 1
       else if (idx <? activeLayer)%Z then 0
       else (5 # 100) / inject_Z (idx - activeLayer);
     scale := if (idx =? activeLayer)%Z then 1 else 4 # 10;
     blur := if (idx =? activeLayer)%Z then 0 else 12;
     pointerEvents := (idx =? activeLayer)%Z;
     warpBlur := isWarping && (idx =? activeLayer)%Z |}.

(** The positions [booksByCategory.map((_, idx) => ...)] visits. *)
Definition indices (bucketCount : nat) : list Z :=
  map Z.of_nat (seq 0 bucketCount).

Definition layers (bucketCount : nat) (s : Navigation.State)
  : list LayerStyle :=
  map (layerStyle (Navigation.isWarping s) (Navigation.activeLayer s))
    (indices bucketCount).

(** [disabled={activeLayer === 0 || isWarping}] *)
Definition prevDisabled (s : Navigation.State) : bool :=
  (Navigation.activeLayer s =? 0)%Z || Navigation.isWarping s.

(** [disabled={activeLayer === booksByCategory.length - 1 || isWarping}] *)
Definition nextDisabled (bucketCount : nat) (s : Navigation.State) : bool :=
  (Navigation.activeLayer s =? Z.of_nat bucketCount - 1)%Z
  || Navigation.isWarping s.

(** The width of the progress bar in percent:
    [((activeLayer + 1) / booksByCategory.length) * 100]. *)
Definition progress (bucketCount : nat) (s : Navigation.State) : Q :=
  inject_Z (Navigation.activeLayer s + 1)
  / inject_Z (Z.of_nat bucketCount) * 100.

(** At most one timeout is pending, and exactly while warping. *)
Definition one_timer (s : Navigation.State) : Prop :=
  (Navigation.isWarping s = true /\ Navigation.timeouts s = 1%nat)
  \/ (Navigation.isWarping s = false /\ Navigation.timeouts s = 0%nat).

End Compositor.

(** ** CoverColorHash: [getCoverColor] *)

Module CoverColor.

(** A title is the sequence of UTF-16 code units [charCodeAt] reads. *)
Definition Title : Type := list Z.

Definition code_unit (c : Z) : Prop := (0 <= c <= 65535)%Z.

(** The conversion the bit operators apply to their operands. *)
Definition toInt32 (n : Z) : Z := ((n + 2 ^ 31) mod 2 ^ 32 - 2 ^ 31)%Z.

(** [hash << 5] *)
Definition shl5 (hash : Z) : Z := toInt32 (toInt32 hash * 2 ^ 5).

(** [hash = title.charCodeAt(i) + ((hash << 5) - hash)]: only the shift
    wraps, the sum and the difference are ordinary numbers. *)
Definition mix (hash c : Z) : Z := (c + (shl5 hash - hash))%Z.

Definition hashOf (title : Title) : Z := fold_left mix title 0%Z.

(** [hash & 0x00FFFFFF] *)
Definition masked (hash : Z) : Z := Z.land (toInt32 hash) 16777215.

(** [Number.prototype.toString(16)] of a natural number: lower-case digits,
    most significant first, no leading zero. *)
Definition digit16 (d : Z) : ascii :=
  if (d <? 10)%Z then ascii_of_nat (48 + Z.to_nat d)
  else ascii_of_nat (87 + Z.to_nat d).

Fixpoint hex_go (fuel : nat) (n : Z) (acc : list ascii) : list ascii :=
  match fuel with
  | O => acc
  | S fuel' =>
      let acc' := digit16 (n mod 16) :: acc in
      if (n / 16 =? 0)%Z then acc' else hex_go fuel' (n / 16) acc'
  end.

Definition toString16 (n : Z) : list ascii :=
  hex_go (S (Z.to_nat (Z.log2 n))) n [].

(** [toUpperCase] on the characters [toString] can produce. *)
Definition upper (c : ascii) : ascii :=
  let n := nat_of_ascii c in
  if (97 <=? n)%nat && (n <=? 122)%nat then ascii_of_nat (n - 32) else c.

(** [s.substring(0, e)]: a negative end counts as 0, an end beyond the
    string as its length. *)
Definition substring0 (s : list ascii) (e : Z) : list ascii :=
  firstn (Z.to_nat e) s.

Definition getCoverColor (title : Title) : string :=
  let c := map upper (toString16 (masked (hashOf title))) in
  string_of_list_ascii
    ("#"%char
     :: substring0 (list_ascii_of_string "00000")
          (6 - Z.of_nat (List.length c))
     ++ c).

(** Reading a colour back: the value of the digits after the [#]. *)
Definition hex_value (c : ascii) : option Z :=
  let n := Z.of_nat (nat_of_ascii c) in
  if (48 <=? n)%Z && (n <=? 57)%Z then Some (n - 48)%Z
  else if (65 <=? n)%Z && (n <=? 70)%Z then Some (n - 55)%Z
  else None.

Fixpoint from_hex (digits : list ascii) (acc : Z) : option Z :=
  match digits with
  | [] => Some acc
  | c :: rest =>
      match hex_value c with
      | Some d => from_hex rest (16 * acc + d)%Z
      | None => None
      end
  end.

Definition colorValue (color : string) : option Z :=
  match list_ascii_of_string color with
  | c :: digits =>
      if Ascii.eqb c "#"%char && Nat.eqb (List.length digits) 6
      then from_hex digits 0%Z else None
  | [] => None
  end.

(** The hash the loop computes when nothing wraps. *)
Definition polynomial (title : Title) : Z :=
  fold_left (fun h c => (31 * h + c)%Z) title 0%Z.

Definition congruent32 (a b : Z) : Prop :=
  exists k, (a = b + k * 2 ^ 32)%Z.

Definition upper_hex (c : ascii) : Prop :=
  In c (list_ascii_of_string "0123456789ABCDEF").

End CoverColor.

(** ** CategoryView: [categoryStats] and [filteredBooks] *)

Module CategoryView.
Import LayerGrouper.

(** What a property of [counts] can hold: a number, or the text that
    [+ 1] makes of an inherited function. *)
Inductive Cell : Type :=
| Num (n : nat)
| Text.

(** [counts[cat] = (counts[cat] || 0) + 1].  An own number is incremented
    (0 is falsy and gives 1 as well); an own text stays text; a name found
    only on the prototype is truthy, so the sum is a text, stored as an own
    property - except for [__proto__], whose setter ignores a text. *)
Definition tally (counts : JsObject.t Cell) (book : Book) : JsObject.t Cell :=
  let cat := cat_of book in
  match JsObject.own_get counts cat with
  | Some (Num n) => JsObject.own_set counts cat (Num (n + 1))
  | Some Text => JsObject.own_set counts cat Text
  | None =>
      if String.eqb cat "__proto__" then counts
      else if JsObject.inherited cat then JsObject.own_set counts cat Text
      else JsObject.own_set counts cat (Num 1)
  end.

Definition tally_all (books : list Book) : JsObject.t Cell :=
  fold_left tally books (JsObject.empty _).

Fixpoint numeric (cs : list (string * Cell)) : option (list (string * nat)) :=
  match cs with
  | [] => Some []
  | (k, Num n) :: rest =>
      match numeric rest with
      | Some l => Some ((k, n) :: l)
      | None => None
      end
  | (_, Text) :: _ => None
  end.

(** [(a, b) => b[1] - a[1]] *)
Definition by_count_desc (a b : string * nat) : Z :=
  (Z.of_nat (snd b) - Z.of_nat (snd a))%Z.

(** [Object.entries(counts).sort(...)].  With a text among the values the
    comparator yields NaN and the order is the engine's choice; the model
    has a result only for a table of numbers. *)
Definition categoryStats (books : list Book) : option (list (string * nat)) :=
  match numeric (JsObject.entries (tally_all books)) with
  | Some l => Some (array_sort by_count_desc l)
  | None => None
  end.

(** [selectedCategory] is [null] or a string; [null] and the empty string
    are falsy. *)
Definition filteredBooks (selectedCategory : option string)
  (books : list Book) : list Book :=
  match selectedCategory with
  | None => []
  | Some c =>
      if String.eqb c EmptyString then []
      else filter (fun b => String.eqb (cat_of b) c) books
  end.

Definition total (stats : list (string * nat)) : nat :=
  fold_right (fun e n => (snd e + n)%nat) 0%nat stats.

Definition cell_total (counts : JsObject.t Cell) : nat :=
  fold_right (fun e n => match snd e with Num c => (c + n)%nat | Text => n end)
    0%nat counts.

End CategoryView.

(** ** App: the book list handed to the views *)

Module App.
Import LayerGrouper.

(** [prev.filter(b => b.id !== confirmDeleteId)] *)
Definition deleteBook (confirmDeleteId : string) (books : list Book)
  : list Book :=
  filter (fun b => negb (String.eqb (id b) confirmDeleteId)) books.

(** [[...prev, created]] *)
Definition addBook (created : Book) (books : list Book) : list Book :=
  books ++ [created].

(** [prev.map(b => b.id === updated.id ? updated : b)] *)
Definition updateBook (updated : Book) (books : list Book) : list Book :=
  map (fun b => if String.eqb (id b) (id updated) then updated else b) books.

End App.

(** ** A view in use: the events of a mounted, entered view *)

Module Session.
Import Lifecycle.

Inductive Event : Type :=
| Navigate (op : Navigation.Op)
| Timeout
| Frame.

Definition deliver (bucketCount : nat) (innerWidth : Z) (e : Event)
  (r : Runtime) : Runtime :=
  match e with
  | Navigate op => navigate bucketCount innerWidth op r
  | Timeout => expire r
  | Frame => animate r
  end.

Definition live (bucketCount : nat) (innerWidth : Z) (es : list Event)
  (r : Runtime) : Runtime :=
  fold_left (fun st e => deliver bucketCount innerWidth e st) es r.

Definition is_frame (e : Event) : bool :=
  match e with Frame => true | _ => false end.

(** What holds of a view that was entered and not yet unmounted. *)
Definition Running (r : Runtime) : Prop :=
  mounted r = true /\ hasEntered r = true
  /\ frame r = true /\ resize r = true /\ mousemove r = true
  /\ staleCalls r = 0%nat
  /\ Compositor.one_timer (nav r).

(** The particle effect with both of its outcomes.  Its body starts with
    [if (!hasEntered || !canvasRef.current) return] and
    [if (!ctx) return]: without a canvas or without a 2D context
    ([context = false]) it registers no listener, requests no frame, never
    calls [draw] and returns no cleanup. *)
Definition setupWith (context : bool) (r : Runtime) : Runtime :=
  if context then particle_setup r else r.

Definition rerenderWith (context : bool) (before : bool) (r : Runtime)
  : Runtime :=
  if hasEntered r && negb (Bool.eqb before (Navigation.isWarping (nav r)))
  then (if context then particle_setup (particle_cleanup r) else r)
  else r.

Definition enterWith (context : bool) (r : Runtime) : Runtime :=
  if mounted r && negb (hasEntered r) then
    setupWith context
      {| nav := nav r; mounted := true; hasEntered := true;
         mousemove := true; resize := resize r; frame := frame r;
         ticks := ticks r; staleCalls := staleCalls r |}
  else r.

Definition navigateWith (context : bool) (bucketCount : nat) (innerWidth : Z)
  (op : Navigation.Op) (r : Runtime) : Runtime :=
  if mounted r then
    rerenderWith context (Navigation.isWarping (nav r))
      (with_nav (Navigation.step bucketCount innerWidth op (nav r)) r)
  else r.

Definition expireWith (context : bool) (r : Runtime) : Runtime :=
  match Navigation.timeouts (nav r) with
  | O => r
  | S n =>
      if mounted r then
        rerenderWith context (Navigation.isWarping (nav r))
          (with_nav (Navigation.warpTimeout (nav r)) r)
      else expire r
  end.

Definition deliverWith (context : bool) (bucketCount : nat) (innerWidth : Z)
  (e : Event) (r : Runtime) : Runtime :=
  match e with
  | Navigate op => navigateWith context bucketCount innerWidth op r
  | Timeout => expireWith context r
  | Frame => animate r
  end.

Definition liveWith (context : bool) (bucketCount : nat) (innerWidth : Z)
  (es : list Event) (r : Runtime) : Runtime :=
  fold_left (fun st e => deliverWith context bucketCount innerWidth e st)
    es r.

(** What holds of an entered, mounted view, with or without a context. *)
Definition RunningWith (context : bool) (r : Runtime) : Prop :=
  mounted r = true /\ hasEntered r = true
  /\ frame r = context /\ resize r = context /\ mousemove r = true
  /\ staleCalls r = 0%nat
  /\ Compositor.one_timer (nav r)
  /\ (context = false -> ticks r = 0%nat).

End Session.

(** ** The path of one particle *)

Module Flight.
Import ParticleField.

(** The particle after a run of frames, one warp flag per frame. *)
Definition flight (flags : list bool) (p : Particle) : Particle :=
  fold_left (fun q w => move w q) flags p.

(** Some frame of the run recycles the particle. *)
Definition recycled_during (flags : list bool) (p : Particle) : Prop :=
  exists before w rest,
    flags = before ++ w :: rest /\ advance w (flight before p) <= 0.

Definition never_recycled (flags : list bool) (p : Particle) : Prop :=
  forall before w rest,
    flags = before ++ w :: rest -> 0 < advance w (flight before p).

(** The ranges [createParticles] draws from. *)
Definition fresh (width height : Q) (p : Particle) : Prop :=
  (- width <= x p /\ x p <= width)
  /\ (- height <= y p /\ y p <= height)
  /\ (0 <= z p /\ z p < 2000)
  /\ (1 <= size p /\ size p <= 3)
  /\ (1 <= speed p /\ speed p <= 3).

Definition sized (p : Particle) : Prop := 1 <= size p.

End Flight.

(** ** Further notions used by the properties *)

Module Notions.
Import LayerGrouper.

Definition of_category (k : string) (b : Book) : bool :=
  String.eqb (cat_of b) k.

(** The names are distinct, every bucket holds exactly the items of its
    category, in the order of the list processed so far, and every category
    met so far has its bucket. *)
Definition Exact (g : list Bucket) (done : list Book) : Prop :=
  NoDup (JsObject.keys g)
  /\ (forall k items, In (k, items) g -> items = filter (of_category k) done)
  /\ (forall b, In b done -> In (cat_of b) (JsObject.keys g)).

(** The numeric cell a table of counts holds for a category. *)
Definition counted (done : list Book) (k : string) : CategoryView.Cell :=
  CategoryView.Num (List.length (filter (of_category k) done)).

(** The counts are those of the list processed so far. *)
Definition Tallied (counts : JsObject.t CategoryView.Cell) (done : list Book)
  : Prop :=
  NoDup (JsObject.keys counts)
  /\ (forall k c, In (k, c) counts ->
        c = counted done k /\ In k (map cat_of done))
  /\ (forall b, In b done -> In (cat_of b) (JsObject.keys counts))
  /\ CategoryView.cell_total counts = List.length done.

Definition as_cell (e : string * nat) : string * CategoryView.Cell :=
  (fst e, CategoryView.Num (snd e)).

End Notions.

(** ** Concrete inputs used below *)

Module Samples.
Import LayerGrouper.

Definition book (n : string) (c : option string) : Book :=
  {| id := n; title := "Dune"; author := "Frank Herbert";
     category := c; coverUrl := None |}.

Definition inheritedName : list Book := [ book "b1" (Some "constructor"%string) ].

Definition lettered : Book := book "b1" (Some "B"%string).
Definition numbered : Book := book "b2" (Some "1"%string).
Definition twoTies : list Book := [ lettered; numbered ].

Definition seeded (names : list string) : list Bucket :=
  map (fun c => (c, @nil Book)) names.

(** A particle on the axis, halfway down the tunnel. *)
Definition halfway : ParticleField.Particle :=
  {| ParticleField.x := 0; ParticleField.y := 0; ParticleField.z := 1000;
     ParticleField.size := 1; ParticleField.speed := 1 |}.

(** A particle about to reach the viewer. *)
Definition arriving : ParticleField.Particle :=
  {| ParticleField.x := 30; ParticleField.y := -20; ParticleField.z := 10;
     ParticleField.size := 2; ParticleField.speed := 3 # 2 |}.

(** A random source that always returns its least value. *)
Definition zeros : nat -> Q := fun _ => 0.

(** A random source that always returns the middle of its range. *)
Definition halves : nat -> Q := fun _ => 1 # 2.

Definition uncategorizedBook : Book := book "b3" None.

(** The code units of the title "Dune". *)
Definition dune : CoverColor.Title := [68; 117; 110; 101]%Z.
Definition shelf : list Book := [ lettered; numbered; uncategorizedBook ].

End Samples.

(** * Properties *)

(** ** Own properties *)

Section OwnProperties.
Variable V : Type.
Implicit Types (o : JsObject.t V) (k : string) (v : V).

Lemma own_get_In o k v :
  JsObject.own_get o k = Some v -> In (k, v) o.
Proof.
  induction o as [|[k' v'] rest IH]; simpl; [discriminate|].
  destruct (String.eqb k' k) eqn:E.
  - apply String.eqb_eq in E. intros [= ->]. left. now subst.
  - intros H. right. now apply IH.
Qed.

Lemma own_get_None_keys o k :
  JsObject.own_get o k = None -> ~ In k (JsObject.keys o).
Proof.
  induction o as [|[k' v'] rest IH]; simpl; [tauto|].
  destruct (String.eqb k' k) eqn:E; [discriminate|].
  apply String.eqb_neq in E. intros H [F|F]; [congruence|now apply IH].
Qed.

Lemma own_set_fresh o k v :
  JsObject.own_get o k = None -> JsObject.own_set o k v = o ++ [(k, v)].
Proof.
  induction o as [|[k' v'] rest IH]; simpl; [reflexivity|].
  destruct (String.eqb k' k); [discriminate|].
  intros H. now rewrite IH.
Qed.

Lemma own_set_In o k v e :
  In e (JsObject.own_set o k v) -> e = (k, v) \/ In e o.
Proof.
  induction o as [|[k' v'] rest IH]; simpl.
  - intros [<-|[]]. now left.
  - destruct (String.eqb k' k) eqn:E; simpl.
    + apply String.eqb_eq in E. subst k'. intros [<-|H]; auto.
    + intros [<-|H]; auto. destruct (IH H); auto.
Qed.

Lemma own_set_keys_present o k v v0 :
  JsObject.own_get o k = Some v0 ->
  JsObject.keys (JsObject.own_set o k v) = JsObject.keys o.
Proof.
  unfold JsObject.keys.
  induction o as [|[k' v'] rest IH]; simpl; [discriminate|].
  destruct (String.eqb k' k); simpl; [reflexivity|].
  intros H. now rewrite IH.
Qed.
End OwnProperties.

(** ** Enumeration order *)

Section Enumeration.
Variable V : Type.
Implicit Types (l : list (string * V)).

Lemma insert_index_perm e l :
  Permutation (JsObject.insert_index e l) (e :: l).
Proof.
  induction l as [|h rest IH]; simpl; [reflexivity|].
  destruct (N.leb _ _); [reflexivity|].
  rewrite IH. apply perm_swap.
Qed.

Lemma ascending_perm l : Permutation (JsObject.ascending l) l.
Proof.
  induction l as [|h rest IH]; simpl; [reflexivity|].
  rewrite insert_index_perm. now constructor.
Qed.

Lemma filter_split_perm (f : string * V -> bool) l :
  Permutation (filter f l ++ filter (fun e => negb (f e)) l) l.
Proof.
  induction l as [|h rest IH]; simpl; [reflexivity|].
  destruct (f h); simpl.
  - now constructor.
  - rewrite <- Permutation_middle. now constructor.
Qed.

Lemma entries_perm (o : JsObject.t V) : Permutation (JsObject.entries o) o.
Proof.
  unfold JsObject.entries.
  rewrite ascending_perm.
  apply (filter_split_perm (fun e => JsObject.is_index (fst e))).
Qed.




End Enumeration.

(** ** The stable sort by descending size *)

Section SortBySize.
Import LayerGrouper.

Lemma sort_insert_perm (e : Bucket) l :
  Permutation (sort_insert by_size_desc e l) (e :: l).
Proof.
  induction l as [|h rest IH]; simpl; [reflexivity|].
  destruct (Z.ltb _ _); [|reflexivity].
  rewrite IH. apply perm_swap.
Qed.

Lemma array_sort_perm (l : list Bucket) :
  Permutation (array_sort by_size_desc l) l.
Proof.
  induction l as [|h rest IH]; simpl; [reflexivity|].
  rewrite sort_insert_perm. now constructor.
Qed.




End SortBySize.

(** ** LayerGrouper *)

Section Grouping.
Import LayerGrouper.

Lemma all_items_push g k items extra :
  JsObject.own_get g k = Some items ->
  Permutation (all_items (JsObject.own_set g k (items ++ extra)))
              (all_items g ++ extra).
Proof.
  unfold all_items, bucket_items.
  induction g as [|[k' v'] rest IH]; simpl; [discriminate|].
  destruct (String.eqb k' k); simpl.
  - intros [= ->].
    rewrite <- !app_assoc. apply Permutation_app_head, Permutation_app_comm.
  - intros H.
    rewrite <- app_assoc. apply Permutation_app_head. now apply IH.
Qed.

Lemma place_items g b g' :
  place g b = Ok g' -> Permutation (all_items g') (all_items g ++ [b]).
Proof.
  unfold place.
  destruct (JsObject.own_get g (cat_of b)) as [items|] eqn:G.
  - intros [= <-]. now apply all_items_push.
  - destruct (JsObject.inherited (cat_of b)); [discriminate|].
    intros [= <-]. rewrite own_set_fresh by assumption.
    unfold all_items. rewrite flat_map_app. reflexivity.
Qed.

Lemma place_routed g b g' :
  place g b = Ok g' -> Routed g -> Routed g'.
Proof.
  unfold place, Routed.
  destruct (JsObject.own_get g (cat_of b)) as [items|] eqn:G.
  - intros [= <-] R bucket Hin x Hx.
    apply own_set_In in Hin. destruct Hin as [->|Hin]; [|now apply R].
    simpl in *. apply in_app_or in Hx. destruct Hx as [Hx|[<-|[]]]; auto.
    apply own_get_In in G. exact (R _ G x Hx).
  - destruct (JsObject.inherited (cat_of b)); [discriminate|].
    intros [= <-] R bucket Hin x Hx.
    apply own_set_In in Hin. destruct Hin as [->|Hin]; [|now apply R].
    simpl in Hx. destruct Hx as [<-|[]]. reflexivity.
Qed.

Lemma place_keys g b g' :
  place g b = Ok g' ->
  forall k, In k (JsObject.keys g') -> In k (JsObject.keys g) \/ k = cat_of b.
Proof.
  unfold place.
  destruct (JsObject.own_get g (cat_of b)) as [items|] eqn:G.
  - intros [= <-] k. rewrite (own_set_keys_present _ _ _ G). auto.
  - destruct (JsObject.inherited (cat_of b)); [discriminate|].
    intros [= <-] k. rewrite own_set_fresh by assumption.
    unfold JsObject.keys. rewrite map_app, in_app_iff. simpl.
    intros [H|[H|[]]]; auto.
Qed.

Lemma place_total g b :
  JsObject.inherited (cat_of b) = false -> exists g', place g b = Ok g'.
Proof.
  unfold place. intros ->.
  destruct (JsObject.own_get g (cat_of b)); eauto.
Qed.

Lemma place_all_spec books : forall g g',
  place_all g books = Ok g' ->
  Permutation (all_items g') (all_items g ++ books)
  /\ (Routed g -> Routed g')
  /\ (forall k, In k (JsObject.keys g') ->
      In k (JsObject.keys g) \/ In k (map cat_of books)).
Proof.
  induction books as [|b rest IH]; simpl; intros g g'.
  - intros [= <-]. rewrite app_nil_r. auto.
  - destruct (place g b) as [g1|] eqn:P; simpl; [|discriminate].
    intros H. destruct (IH _ _ H) as (Hperm & Hrouted & Hkeys).
    split; [|split].
    + rewrite Hperm, (place_items _ _ P), <- app_assoc. reflexivity.
    + intros R. apply Hrouted. eapply place_routed; eauto.
    + intros k Hk. destruct (Hkeys k Hk) as [H1|H1]; auto.
      destruct (place_keys _ _ P k H1); auto.
Qed.

Lemma place_all_total books : forall g,
  Forall (fun b => JsObject.inherited (cat_of b) = false) books ->
  exists g', place_all g books = Ok g'.
Proof.
  induction books as [|b rest IH]; simpl; intros g Hall; [eauto|].
  inversion Hall as [|? ? Hb Hrest]; subst.
  destruct (place_total g b Hb) as [g1 ->]. simpl. now apply IH.
Qed.

Lemma seed_routed : Routed seed_groups.
Proof.
  intros bucket Hin b Hb. simpl in Hin.
  repeat (destruct Hin as [<-|Hin]; [destruct Hb|]). destruct Hin.
Qed.

Lemma total_size_length (bs : list Bucket) :
  total_size bs = List.length (all_items bs).
Proof.
  unfold all_items.
  induction bs as [|h rest IH]; simpl; [reflexivity|].
  rewrite length_app, IH. reflexivity.
Qed.

Lemma Routed_perm g g' : Permutation g g' -> Routed g -> Routed g'.
Proof.
  intros P R bucket Hin. apply R.
  now apply (Permutation_in _ (Permutation_sym P)).
Qed.

Lemma booksByCategory_buckets books r :
  booksByCategory books = Ok r ->
  exists g, place_all seed_groups books = Ok g
            /\ r = array_sort by_size_desc (JsObject.entries g)
            /\ Permutation r g.
Proof.
  unfold booksByCategory.
  destruct (place_all seed_groups books) as [g|]; simpl; [|discriminate].
  intros [= <-]. exists g. repeat split.
  now rewrite array_sort_perm, entries_perm.
Qed.

(** The grouping is a partition whenever it returns, and it returns
    whenever no category is the name of an inherited property. *)
Lemma grouping_partitions books :
  Forall (fun b => JsObject.inherited (cat_of b) = false) books ->
  exists r, booksByCategory books = Ok r
            /\ Permutation (all_items r) books
            /\ total_size r = List.length books
            /\ Routed r.
Proof.
  intros Hall.
  destruct (place_all_total seed_groups Hall) as [g Hg].
  unfold booksByCategory. rewrite Hg. simpl.
  eexists; split; [reflexivity|].
  destruct (place_all_spec _ _ Hg) as (Hperm & Hrouted & _).
  assert (Permutation (array_sort by_size_desc (JsObject.entries g)) g)
    as P by now rewrite array_sort_perm, entries_perm.
  assert (Permutation (all_items (array_sort by_size_desc (JsObject.entries g)))
                      books) as Q.
  { unfold all_items at 1. rewrite P. exact Hperm. }
  repeat split.
  - exact Q.
  - rewrite total_size_length. now apply Permutation_length.
  - apply (Routed_perm (Permutation_sym P)). apply Hrouted, seed_routed.
Qed.
End Grouping.

(** ** Claims about the grouping *)

Section GroupingClaims.
Import LayerGrouper Samples.

Lemma place_keeps_no_inherited g b g' :
  place g b = Ok g' -> no_inherited_keys g -> no_inherited_keys g'.
Proof.
  unfold place, no_inherited_keys.
  destruct (JsObject.own_get g (cat_of b)) as [items|] eqn:G.
  - intros [= <-]. now rewrite (own_set_keys_present _ _ _ G).
  - destruct (JsObject.inherited (cat_of b)) eqn:I; [discriminate|].
    intros [= <-] H. rewrite own_set_fresh by assumption.
    unfold JsObject.keys in *. rewrite map_app. apply Forall_app.
    split; [assumption|]. now repeat constructor.
Qed.

Lemma place_all_throws books : forall g,
  no_inherited_keys g ->
  Exists (fun b => JsObject.inherited (cat_of b) = true) books ->
  place_all g books = TypeError.
Proof.
  induction books as [|b rest IH]; intros g Hg Hex.
  - inversion Hex.
  - simpl. destruct (place g b) as [g1|] eqn:P; [|reflexivity].
    simpl. apply IH; [eapply place_keeps_no_inherited; eauto|].
    inversion Hex as [? ? Hb|? ? Hrest]; subst; [|assumption].
    exfalso. unfold place in P.
    destruct (JsObject.own_get g (cat_of b)) as [items|] eqn:G.
    + apply own_get_In in G. unfold no_inherited_keys in Hg.
      rewrite Forall_forall in Hg.
      specialize (Hg _ (in_map fst _ _ G)). simpl in Hg. congruence.
    + rewrite Hb in P. discriminate.
Qed.

(** A single item whose category names an inherited property makes the
    whole grouping throw, wherever in the list it stands. *)
Lemma grouping_throws books :
  Exists (fun b => JsObject.inherited (cat_of b) = true) books ->
  booksByCategory books = TypeError.
Proof.
  intros H. unfold booksByCategory.
  rewrite place_all_throws; auto.
  unfold no_inherited_keys. simpl. repeat constructor.
Qed.

(** An item without a category is found in the bucket named
    [uncategorized]. *)
Lemma missing_category_bucket books r b :
  booksByCategory books = Ok r ->
  In b books -> category b = None ->
  exists items, In (uncategorized, items) r /\ In b items.
Proof.
  intros H Hin Hc.
  destruct (booksByCategory_buckets _ H) as (g & Hg & _ & P).
  destruct (place_all_spec _ _ Hg) as (Hperm & Hrouted & _).
  assert (In b (all_items g)) as Hb.
  { apply (Permutation_in _ (Permutation_sym Hperm)). simpl. exact Hin. }
  unfold all_items in Hb. apply in_flat_map in Hb.
  destruct Hb as ([k items] & Hbucket & Hitems).
  pose proof (Hrouted seed_routed _ Hbucket _ Hitems) as Hk.
  unfold cat_of in Hk. rewrite Hc in Hk. simpl in Hk. subst k.
  exists items. split; [|exact Hitems].
  now apply (Permutation_in _ (Permutation_sym P)).
Qed.

(** C5 (evaluation at the failing input).  A one-item list whose item has
    the category "constructor" is not partitioned: [groups[cat]] resolves
    to the inherited [Object.prototype.constructor], no bucket is created,
    and the call of [push] on it throws, so no bucket list is returned. *)
Theorem grouping_throws_on_inherited_name :
  booksByCategory inheritedName = TypeError.
Proof. reflexivity. Qed.

(** C2 (as stated, refuted).  The empty item list does not give zero
    buckets. *)
Lemma empty_list_not_zero_buckets :
  ~ (exists r, booksByCategory [] = Ok r /\ List.length r = 0%nat).
Proof.
  intros (r & H & L). vm_compute in H. injection H as <-. discriminate L.
Qed.

(** C2 (amended).  For the empty item list the grouping returns exactly
    the six seeded default buckets, all empty, in seed order; navigation
    over them is ordinary navigation over six buckets: from the initial
    state [handlePrev] changes nothing and [handleNext] moves to layer 1. *)
Theorem empty_list_six_default_buckets :
  booksByCategory [] = Ok (seeded defaultCats)
  /\ List.length (seeded defaultCats) = 6%nat
  /\ (forall w, Navigation.handlePrev w Navigation.initial
                = Navigation.initial)
  /\ (forall w, Navigation.activeLayer
                  (Navigation.handleNext 6 w Navigation.initial) = 1%Z).
Proof.
  repeat split.
  intros w. unfold Navigation.handleNext, Navigation.goToLayer. simpl.
  now destruct (w <? 768)%Z.
Qed.



End GroupingClaims.

(** ** Claims about navigation *)

Section NavigationClaims.
Import Navigation.

Lemma goToLayer_noop w index s :
  index = activeLayer s \/ isWarping s = true -> goToLayer w index s = s.
Proof.
  unfold goToLayer. intros [->| ->].
  - now rewrite Z.eqb_refl.
  - now rewrite orb_true_r.
Qed.

Lemma goToLayer_active w index s :
  activeLayer (goToLayer w index s) = index
  \/ goToLayer w index s = s.
Proof.
  unfold goToLayer.
  destruct ((index =? activeLayer s)%Z || isWarping s); [now right|].
  left. now destruct (w <? 768)%Z.
Qed.

Lemma step_in_range n w op s :
  rendered n op -> in_range n s -> in_range n (step n w op s).
Proof.
  unfold in_range. destruct op as [index| | |]; simpl; intros Hop Hs.
  - destruct (goToLayer_active w index s) as [->| ->]; assumption.
  - unfold handleNext.
    destruct (Z.ltb_spec (activeLayer s) (Z.of_nat n - 1)); [|assumption].
    destruct (goToLayer_active w (activeLayer s + 1) s) as [->| ->]; lia.
  - unfold handlePrev.
    destruct (Z.ltb_spec 0 (activeLayer s)); [|assumption].
    destruct (goToLayer_active w (activeLayer s - 1) s) as [->| ->]; lia.
  - unfold warpTimeout. now destruct (timeouts s).
Qed.

(** C1 (as stated, refuted).  On six buckets, [goToLayer(99)] issued in
    the idle initial state is not ignored: it starts a warp and stores 99
    as the active layer. *)
Lemma goTo_out_of_range_is_stored :
  run 6 1024 [GoTo 99] initial
    = {| activeLayer := 99; isWarping := true; isNavOpen := false;
         timeouts := 1 |}
  /\ ~ in_range 6 (run 6 1024 [GoTo 99] initial).
Proof.
  split; [reflexivity|]. unfold in_range. simpl. lia.
Qed.

(** C1 (amended).  For every sequence of [goTo]/[next]/[prev] (and timer
    expiries) in which each [goTo] index lies in [[0, bucketCount)] - the
    view only passes positions of the rendered bucket list - the active
    layer stays within [[0, bucketCount)] at every observation point; a
    [goTo] at the active index or during a warp leaves the state unchanged.
    [goToLayer] itself makes no range check. *)
Theorem active_layer_in_range n w ops s :
  in_range n s ->
  Forall (rendered n) ops ->
  Forall (in_range n) (trace n w ops s)
  /\ in_range n (run n w ops s)
  /\ (forall index, index = activeLayer s \/ isWarping s = true ->
                    goToLayer w index s = s)
  /\ (forall index, index <> activeLayer s -> isWarping s = false ->
                    activeLayer (goToLayer w index s) = index
                    /\ isWarping (goToLayer w index s) = true).
Proof.
  intros Hs Hops. split; [|split; [|split]].
  - revert s Hs. induction Hops as [|op rest Hop _ IH]; intros s Hs; simpl.
    + constructor.
    + assert (in_range n (step n w op s)) by now apply step_in_range.
      constructor; auto.
  - revert s Hs. induction Hops as [|op rest Hop _ IH]; intros s Hs; simpl.
    + assumption.
    + apply IH. now apply step_in_range.
  - intros index. apply goToLayer_noop.
  - intros index Hne Hidle. unfold goToLayer. rewrite Hidle.
    apply Z.eqb_neq in Hne. rewrite Hne. simpl.
    now destruct (w <? 768)%Z.
Qed.

Lemma active_layer_in_range_witness :
  in_range 6 initial
  /\ Forall (rendered 6) [GoTo 3; Expire; Next; GoTo 5; Expire; Next; Prev]
  /\ Forall (in_range 6)
       (trace 6 1024 [GoTo 3; Expire; Next; GoTo 5; Expire; Next; Prev]
          initial).
Proof.
  assert (in_range 6 initial) as H0 by (unfold in_range; simpl; lia).
  assert (Forall (rendered 6)
            [GoTo 3; Expire; Next; GoTo 5; Expire; Next; Prev]) as H1
    by (repeat constructor; simpl; lia).
  split; [exact H0|]. split; [exact H1|].
  exact (proj1 (@active_layer_in_range 6 1024 _ _ H0 H1)).
Defined.
End NavigationClaims.

(** ** Claims about teardown *)

Section LifecycleClaims.
Import Lifecycle.

Lemma after_unmounted es : forall r,
  mounted r = false -> frame r = false ->
  ticks (after es r) = ticks r
  /\ mounted (after es r) = false /\ frame (after es r) = false.
Proof.
  induction es as [|e rest IH]; intros r Hm Hf; simpl; [auto|].
  assert (ticks (late e r) = ticks r /\ mounted (late e r) = false
          /\ frame (late e r) = false) as (Ht & Hm' & Hf').
  { destruct e; simpl.
    - unfold expire. destruct (Navigation.timeouts (nav r)); [auto|].
      rewrite Hm. simpl. auto.
    - unfold animate. rewrite Hf. auto. }
  destruct (IH _ Hm' Hf') as (H1 & H2 & H3). rewrite H1. auto.
Qed.

(** The tick scheduler is cancelled by teardown: whatever the host still
    delivers afterwards, [draw] is never called again. *)
Lemma unmount_stops_ticks r es :
  ticks (after es (unmount r)) = ticks r.
Proof.
  destruct (after_unmounted es (unmount r) eq_refl eq_refl) as (H & _).
  exact H.
Qed.

(** No cleanup touches the warp timeouts. *)
Lemma unmount_keeps_timeouts r :
  Navigation.timeouts (nav (unmount r)) = Navigation.timeouts (nav r).
Proof. reflexivity. Qed.

(** C3 (evaluation at the failing input).  Enter the view, go to layer 1,
    unmount before the 900 ms have passed: the animation frame is
    cancelled, but the timeout started by [triggerWarp] is still pending,
    and when it expires its callback calls [setIsWarping] on the
    torn-down view. *)
Theorem warp_timeout_survives_unmount :
  let torn := unmount (navigate 6 1024 (Navigation.GoTo 1) (enter mount)) in
  mounted torn = false
  /\ frame torn = false
  /\ Navigation.timeouts (nav torn) = 1%nat
  /\ staleCalls torn = 0%nat
  /\ staleCalls (after [LateTimeout] torn) = 1%nat
  /\ ticks (after [LateFrame; LateTimeout; LateFrame] torn) = ticks torn.
Proof. repeat split. Qed.
End LifecycleClaims.

(** ** Claims about the proximity trigger *)

Section ProximityClaims.
Import Proximity.

Lemma handleMouseMove_rule x v :
  (x < near -> handleMouseMove false x v = true)
  /\ (far < x -> handleMouseMove false x v = false)
  /\ (near <= x <= far -> handleMouseMove false x v = v).
Proof.
  unfold handleMouseMove, Qlt_bool, near, far.
  destruct (Qle_bool 40 x) eqn:A; destruct (Qle_bool x 120) eqn:B; simpl;
    try (apply Qle_bool_iff in A); try (apply Qle_bool_iff in B);
    repeat split; intros; try reflexivity; exfalso;
    try (assert (~ 40 <= x)
           by (intros F; apply Qle_bool_iff in F; congruence));
    try (assert (~ x <= 120)
           by (intros F; apply Qle_bool_iff in F; congruence));
    lra.
Qed.

(** C9.  With thresholds 40 and 120, in every sequence of pointer moves
    the visibility after a move at [x] is [true] when [x < 40], [false]
    when [x > 120], and the visibility before the move otherwise; the
    moves 10, 60, 130, 70 give true, true, false, false. *)
Theorem visibility_hysteresis xs v0 i x before now :
  nth_error xs i = Some x ->
  nth_error (v0 :: visibilities false xs v0) i = Some before ->
  nth_error (visibilities false xs v0) i = Some now ->
  (near == 40 /\ far == 120)
  /\ (x < near -> now = true)
  /\ (far < x -> now = false)
  /\ (near <= x <= far -> now = before)
  /\ visibilities false [10; 60; 130; 70] v0 = [true; true; false; false].
Proof.
  intros Hx Hb Hn.
  split; [split; reflexivity|].
  assert (now = handleMouseMove false x before) as ->.
  { revert v0 i Hx Hb Hn. induction xs as [|y rest IH]; intros v0 i Hx Hb Hn.
    - destruct i; discriminate.
    - destruct i as [|i]; cbn [nth_error visibilities] in *.
      + injection Hx as ->. injection Hb as ->. now injection Hn as <-.
      + eapply IH; eauto. }
  destruct (handleMouseMove_rule x before) as (H1 & H2 & H3).
  repeat split; auto.
Qed.

Lemma visibility_hysteresis_witness :
  nth_error [10; 60; 130; 70] 3 = Some 70
  /\ nth_error (false :: visibilities false [10; 60; 130; 70] false) 3
     = Some false
  /\ nth_error (visibilities false [10; 60; 130; 70] false) 3 = Some false
  /\ visibilities false [10; 60; 130; 70] false
     = [true; true; false; false].
Proof.
  split; [reflexivity|]. split; [reflexivity|]. split; [reflexivity|].
  apply (@visibility_hysteresis [10; 60; 130; 70] false 3%nat 70 false false);
    reflexivity.
Defined.
End ProximityClaims.

(** ** Claims about the particle field *)

Lemma Qlt_bool_iff a b : Qlt_bool a b = true <-> a < b.
Proof.
  unfold Qlt_bool. rewrite negb_true_iff. split.
  - intros H. apply Qnot_le_lt. intros F.
    apply Qle_bool_iff in F. congruence.
  - intros H. destruct (Qle_bool b a) eqn:E; [|reflexivity].
    apply Qle_bool_iff in E. exfalso. lra.
Qed.

Section ParticleClaims.
Import ParticleField Samples.

Lemma recycle_cases d :
  (d <= 0 /\ recycle d = MAX_DEPTH) \/ (0 < d /\ recycle d = d).
Proof.
  unfold recycle. destruct (Qle_bool d 0) eqn:E.
  - left. apply Qle_bool_iff in E. auto.
  - right. split; [|reflexivity]. apply Qnot_le_lt. intros F.
    apply Qle_bool_iff in F. congruence.
Qed.

Lemma multiplier_cases w :
  (w = true /\ multiplier w = 12) \/ (w = false /\ multiplier w = 1).
Proof. destruct w; auto. Qed.

Lemma move_positive w p : 0 < z (move w p).
Proof.
  simpl. destruct (recycle_cases (advance w p)) as [[_ ->]|[H ->]].
  - reflexivity.
  - exact H.
Qed.

Lemma move_bounded w p :
  z p <= MAX_DEPTH -> 0 <= speed p -> z (move w p) <= MAX_DEPTH.
Proof.
  intros Hz Hs. simpl.
  destruct (recycle_cases (advance w p)) as [[_ ->]|[_ ->]].
  - apply Qle_refl.
  - unfold advance, MAX_DEPTH in *.
    destruct (multiplier_cases w) as [[_ ->]|[_ ->]]; lra.
Qed.

Lemma move_shape w p : shape (move w p) = shape p.
Proof. reflexivity. Qed.

Lemma frames_snoc W H flags w ps :
  frames W H (flags ++ [w]) ps = map (move w) (frames W H flags ps).
Proof. unfold frames. now rewrite fold_left_app. Qed.

Lemma frames_cons W H w flags ps :
  frames W H (w :: flags) ps = frames W H flags (map (move w) ps).
Proof. reflexivity. Qed.

Lemma frames_length W H flags : forall ps,
  List.length (frames W H flags ps) = List.length ps.
Proof.
  induction flags as [|w rest IH]; intros ps; [reflexivity|].
  now rewrite frames_cons, IH, length_map.
Qed.

Lemma frames_shape W H flags : forall ps,
  map shape (frames W H flags ps) = map shape ps.
Proof.
  induction flags as [|w rest IH]; intros ps; [reflexivity|].
  rewrite frames_cons, IH, map_map. reflexivity.
Qed.

Lemma move_launched w p : launched p -> launched (move w p).
Proof.
  intros (H0 & H1 & H2). repeat split.
  - apply Qlt_le_weak, move_positive.
  - apply move_bounded; [assumption|lra].
  - exact H2.
Qed.

Lemma frames_launched W H flags : forall ps,
  Forall launched ps -> Forall launched (frames W H flags ps).
Proof.
  induction flags as [|w rest IH]; intros ps Hps; [assumption|].
  rewrite frames_cons. apply IH. apply Forall_map. eapply Forall_impl; [|exact Hps].
  intros p. apply move_launched.
Qed.

Lemma createParticles_launched random W H :
  unit_interval random -> Forall launched (createParticles random W H).
Proof.
  intros Hr. unfold createParticles. apply Forall_map, Forall_forall.
  intros i _. unfold launched, MAX_DEPTH, newParticle. cbn [z speed].
  destruct (Hr (5 * i + 2)%nat), (Hr (5 * i + 4)%nat). lra.
Qed.

Lemma createParticles_length random W H :
  List.length (createParticles random W H) = particleCount.
Proof. unfold createParticles. now rewrite length_map, length_seq. Qed.

(** C4.  From initialization on, after every tick the field holds exactly
    150 particles and every depth lies in (0, 2000]; a depth that the
    decrement brings to 0 or below is set to exactly 2000 on that tick. *)
Theorem field_depths_stay_in_range random W H flags :
  unit_interval random ->
  flags <> [] ->
  List.length (frames W H flags (createParticles random W H)) = 150%nat
  /\ Forall visible_depth (frames W H flags (createParticles random W H))
  /\ (forall w p, advance w p <= 0 -> z (move w p) = 2000)
  /\ MAX_DEPTH = 2000.
Proof.
  intros Hr Hne. split; [|split; [|split]].
  - now rewrite frames_length, createParticles_length.
  - destruct (exists_last Hne) as (before & w & ->).
    rewrite frames_snoc. apply Forall_map.
    eapply Forall_impl;
      [|apply (frames_launched W H before),
          (createParticles_launched W H Hr)].
    intros p (H0 & H1 & H2). split.
    + apply move_positive.
    + apply move_bounded; [assumption|lra].
  - intros w p Hp. simpl.
    destruct (recycle_cases (advance w p)) as [[_ ->]|[Hpos _]].
    + reflexivity.
    + exfalso. lra.
  - reflexivity.
Qed.

Lemma field_depths_stay_in_range_witness :
  unit_interval zeros
  /\ [false; true] <> []
  /\ Forall visible_depth
       (frames 800 600 [false; true] (createParticles zeros 800 600)).
Proof.
  assert (unit_interval zeros) as H0
    by (intros n; unfold zeros; split; [apply Qle_refl|reflexivity]).
  assert ([false; true] <> []) as H1 by discriminate.
  split; [exact H0|]. split; [exact H1|].
  exact (proj1 (proj2 (@field_depths_stay_in_range zeros 800 600 _ H0 H1))).
Defined.

(** C7.  A tick leaves [x], [y], [size] and [speed] of every particle as
    they were, on a recycling tick too; the depth is decreased by exactly
    [speed * 12] while warping and by exactly [speed * 1] otherwise, and
    then recycled if that brought it to 0 or below.  The tick [draw] runs
    is this update of every particle of the field, with the warp flag of
    that tick. *)
Theorem tick_changes_depth_only w p :
  shape (move w p) = shape p
  /\ advance w p = z p - speed p * (if w then 12 else 1)
  /\ z (move w p) = recycle (advance w p)
  /\ (0 < advance w p -> z (move w p) = advance w p)
  /\ (advance w p <= 0 ->
      z (move w p) = MAX_DEPTH /\ shape (move w p) = shape p)
  /\ (forall W H flags ps,
        map shape (frames W H flags ps) = map shape ps)
  /\ (forall W H ps, fst (draw w W H ps) = map (move w) ps)
  /\ (forall W H flags ps,
        frames W H (flags ++ [w]) ps = map (move w) (frames W H flags ps))
  /\ (forall W H ps,
        Forall2 (fun before after =>
                   shape after = shape before
                   /\ z after
                      = recycle (z before
                                 - speed before * (if w then 12 else 1)))
          ps (fst (draw w W H ps))).
Proof.
  split; [reflexivity|]. split; [now destruct w|]. split; [reflexivity|].
  split; [|split; [|split; [|split; [|split]]]].
  - intros Hpos. simpl.
    destruct (recycle_cases (advance w p)) as [[Hle _]|[_ ->]];
      [exfalso; lra|reflexivity].
  - intros Hle. split; [|reflexivity]. simpl.
    destruct (recycle_cases (advance w p)) as [[_ ->]|[Hpos _]];
      [reflexivity|exfalso; lra].
  - intros W H flags ps. apply frames_shape.
  - reflexivity.
  - intros W H flags ps. apply frames_snoc.
  - intros W H ps. cbn [draw fst].
    induction ps as [|q rest IH]; simpl; constructor; [|exact IH].
    split; [reflexivity|]. now destruct w.
Qed.

Lemma tick_changes_depth_only_witness :
  advance true arriving <= 0
  /\ z (move true arriving) = MAX_DEPTH
  /\ shape (move true arriving) = shape arriving
  /\ 0 < advance false arriving
  /\ z (move false arriving) = advance false arriving.
Proof.
  assert (advance true arriving <= 0) as H0 by (vm_compute; discriminate).
  assert (0 < advance false arriving) as H1 by reflexivity.
  destruct (tick_changes_depth_only true arriving)
    as (_ & _ & _ & _ & Hre & _).
  destruct (tick_changes_depth_only false arriving)
    as (_ & _ & _ & Hadv & _).
  destruct (Hre H0) as (Hz & Hs).
  repeat split; auto.
Defined.

Lemma perspective_positive d : 0 < d -> perspective d = Some (FOCAL / d).
Proof.
  intros Hd. unfold perspective.
  destruct (Qeq_bool d 0) eqn:E; [|reflexivity].
  apply Qeq_bool_iff in E. exfalso. lra.
Qed.

Lemma project_drawn w W H p d :
  0 < z p ->
  project w W H p = Some d ->
  on_canvas W H p
  /\ d = {| px := x p * (FOCAL / z p) + W / 2;
            py := y p * (FOCAL / z p) + H / 2;
            radius := size p * (FOCAL / z p);
            alpha := (2000 - z p) / 2000;
            fillOpacity := (2000 - z p) / 2000 * (1 # 2);
            strokeOpacity :=
              if w then Some ((2000 - z p) / 2000 * (15 # 100)) else None |}.
Proof.
  intros Hz. unfold project. rewrite (perspective_positive Hz).
  destruct (Qlt_bool 0 (x p * (FOCAL / z p) + W / 2)) eqn:A;
    [|discriminate].
  destruct (Qlt_bool (x p * (FOCAL / z p) + W / 2) W) eqn:B;
    [|discriminate].
  destruct (Qlt_bool 0 (y p * (FOCAL / z p) + H / 2)) eqn:C;
    [|discriminate].
  destruct (Qlt_bool (y p * (FOCAL / z p) + H / 2) H) eqn:D;
    [|discriminate].
  simpl. intros [= <-]. split; [|reflexivity].
  apply Qlt_bool_iff in A, B, C, D. repeat split; assumption.
Qed.

Lemma project_on_canvas w W H p :
  0 < z p -> on_canvas W H p -> exists d, project w W H p = Some d.
Proof.
  intros Hz (A & B & C & D). unfold project.
  rewrite (perspective_positive Hz).
  apply Qlt_bool_iff in A, B, C, D. rewrite A, B, C, D. simpl. eauto.
Qed.

Lemma half_of_alpha a b : a < b ->
  (2000 - b) / 2000 * (1 # 2) < (2000 - a) / 2000 * (1 # 2).
Proof.
  intros Hab. unfold Qdiv.
  apply Qmult_lt_compat_r; [reflexivity|].
  apply Qmult_lt_compat_r; [reflexivity|]. lra.
Qed.

(** C8 (as stated, refuted).  A particle on the axis at depth 1000 is
    painted with fill opacity 1/4, not (2000 - 1000) / 2000 = 1/2. *)
Lemma fill_opacity_is_not_alpha :
  exists d, project false 800 600 halfway = Some d
            /\ fillOpacity d == 1 # 4
            /\ (MAX_DEPTH - z halfway) / MAX_DEPTH == 1 # 2
            /\ ~ fillOpacity d == (MAX_DEPTH - z halfway) / MAX_DEPTH.
Proof.
  eexists. split; [reflexivity|]. split; [reflexivity|].
  split; [reflexivity|].
  intros F. vm_compute in F. discriminate F.
Qed.

(** C8 (amended).  For every particle with depth d in (0, MAX_DEPTH] that
    projects inside the canvas, the screen position is
    planar position * (FOCAL / d) + viewport centre, the apparent size is
    size * (FOCAL / d), and the disc is filled with opacity
    0.5 * (MAX_DEPTH - d) / MAX_DEPTH (the streak drawn while warping
    uses 0.15 of the same base); so a particle at depth MAX_DEPTH is
    drawn with opacity 0 and the opacity grows as the depth shrinks.  A
    particle that projects onto or outside the border is not drawn. *)
Theorem projection_of_visible_particle w W H p :
  visible_depth p ->
  (forall d, project w W H p = Some d ->
     px d = x p * (FOCAL / z p) + W / 2
     /\ py d = y p * (FOCAL / z p) + H / 2
     /\ radius d = size p * (FOCAL / z p)
     /\ alpha d = (2000 - z p) / 2000
     /\ fillOpacity d == (1 # 2) * ((MAX_DEPTH - z p) / MAX_DEPTH)
     /\ (strokeOpacity d
         = if w then Some ((2000 - z p) / 2000 * (15 # 100)) else None)
     /\ (z p == MAX_DEPTH -> fillOpacity d == 0)
     /\ (forall q dq, visible_depth q -> z p < z q ->
           project w W H q = Some dq -> fillOpacity dq < fillOpacity d))
  /\ (on_canvas W H p <-> exists d, project w W H p = Some d).
Proof.
  intros (Hpos & Hmax). split.
  - intros d Hd. destruct (project_drawn _ _ _ _ Hpos Hd) as (_ & ->).
    cbn [px py radius alpha fillOpacity strokeOpacity].
    repeat split.
    + unfold MAX_DEPTH. apply Qmult_comm.
    + intros Hz. unfold MAX_DEPTH in Hz. rewrite Hz. reflexivity.
    + intros q dq (Hq & _) Hlt Hdq.
      destruct (project_drawn _ _ _ _ Hq Hdq) as (_ & ->).
      cbn [fillOpacity]. now apply half_of_alpha.
  - split.
    + now apply project_on_canvas.
    + intros (d & Hd). now destruct (project_drawn _ _ _ _ Hpos Hd).
Qed.

Lemma projection_of_visible_particle_witness :
  visible_depth halfway
  /\ (on_canvas 800 600 halfway
      <-> exists d, project true 800 600 halfway = Some d).
Proof.
  assert (visible_depth halfway) as H0
    by (split; [reflexivity|vm_compute; discriminate]).
  split; [exact H0|].
  exact (proj2 (@projection_of_visible_particle true 800 600 halfway H0)).
Defined.

(** C10.  Within a tick the decrement and the recycle reset come before
    the projection, so the depth that [1000 / p.z] divides by is strictly
    positive for every particle on every tick; every created particle has
    speed at least 1, and one created at depth exactly 0 is recycled to
    MAX_DEPTH by its first tick. *)
Theorem perspective_divisor_positive random W H flags w :
  unit_interval random ->
  Forall (fun p => 1 <= speed p)
    (frames W H flags (createParticles random W H))
  /\ Forall (fun p => 0 < z p /\ perspective (z p) = Some (FOCAL / z p))
       (fst (draw w W H (frames W H flags (createParticles random W H))))
  /\ snd (draw w W H (frames W H flags (createParticles random W H)))
     = map (project w W H)
         (fst (draw w W H (frames W H flags (createParticles random W H))))
  /\ (forall p, z p == 0 -> 1 <= speed p -> z (move w p) = MAX_DEPTH).
Proof.
  intros Hr. split; [|split; [|split]].
  - eapply Forall_impl;
      [|apply (frames_launched W H flags),
          (createParticles_launched W H Hr)].
    now intros p (_ & _ & Hs).
  - simpl. apply Forall_map, Forall_forall. intros p _.
    pose proof (move_positive w p) as Hp.
    split; [exact Hp|]. now apply perspective_positive.
  - reflexivity.
  - intros p Hz Hs. simpl.
    destruct (recycle_cases (advance w p)) as [[_ ->]|[Hpos _]];
      [reflexivity|].
    exfalso. unfold advance in Hpos.
    destruct (multiplier_cases w) as [[_ Hm]|[_ Hm]]; rewrite Hm in Hpos; lra.
Qed.

Lemma perspective_divisor_positive_witness :
  unit_interval zeros
  /\ Forall (fun p => 0 < z p /\ perspective (z p) = Some (FOCAL / z p))
       (fst (draw false 800 600 (frames 800 600 [] (createParticles zeros 800 600)))).
Proof.
  assert (unit_interval zeros) as H0
    by (intros n; unfold zeros; split; [apply Qle_refl|reflexivity]).
  split; [exact H0|].
  exact (proj1 (proj2
           (@perspective_divisor_positive zeros 800 600 [] false H0))).
Defined.
End ParticleClaims.

(** ** More about the grouping *)

Section GroupingOrder.
Import LayerGrouper Notions.

Lemma own_set_In_other (V : Type) (o : JsObject.t V) k v e :
  NoDup (JsObject.keys o) ->
  In e (JsObject.own_set o k v) -> e = (k, v) \/ (In e o /\ fst e <> k).
Proof.
  unfold JsObject.keys.
  induction o as [|[k' v'] rest IH]; simpl; intros Hnd.
  - intros [<-|[]]. now left.
  - inversion Hnd as [|? ? Hnotin Hrest]; subst.
    destruct (String.eqb k' k) eqn:E; simpl.
    + apply String.eqb_eq in E. subst k'. intros [<-|H]; [now left|].
      right. split; [now right|]. intros <-.
      apply Hnotin. now apply in_map.
    + apply String.eqb_neq in E. intros [<-|H]; [right; split; auto|].
      destruct (IH Hrest H) as [->|[H1 H2]]; auto.
Qed.

Lemma own_set_keys_NoDup (V : Type) (o : JsObject.t V) k v :
  NoDup (JsObject.keys o) -> NoDup (JsObject.keys (JsObject.own_set o k v)).
Proof.
  intros Hnd. destruct (JsObject.own_get o k) as [v0|] eqn:G.
  - now rewrite (own_set_keys_present _ _ _ G).
  - rewrite own_set_fresh by assumption.
    unfold JsObject.keys in *. rewrite map_app. simpl.
    apply NoDup_app_remove_l with (l := []). simpl.
    apply Permutation_NoDup with (l := k :: map fst o).
    + apply Permutation_cons_append.
    + constructor; [|assumption]. now apply own_get_None_keys.
Qed.

Lemma own_set_keys_incl (V : Type) (o : JsObject.t V) k v :
  incl (JsObject.keys o) (JsObject.keys (JsObject.own_set o k v)).
Proof.
  destruct (JsObject.own_get o k) as [v0|] eqn:G.
  - rewrite (own_set_keys_present _ _ _ G). apply incl_refl.
  - rewrite own_set_fresh by assumption.
    unfold JsObject.keys. rewrite map_app. now apply incl_appl, incl_refl.
Qed.

Lemma filter_snoc_same k done b :
  of_category k b = true ->
  filter (of_category k) (done ++ [b]) = filter (of_category k) done ++ [b].
Proof. intros H. rewrite filter_app. simpl. now rewrite H. Qed.

Lemma filter_snoc_other k done b :
  of_category k b = false ->
  filter (of_category k) (done ++ [b]) = filter (of_category k) done.
Proof. intros H. rewrite filter_app. simpl. rewrite H. apply app_nil_r. Qed.

Lemma filter_none k done :
  (forall b, In b done -> cat_of b <> k) -> filter (of_category k) done = [].
Proof.
  induction done as [|b rest IH]; simpl; intros H; [reflexivity|].
  unfold of_category at 1.
  destruct (String.eqb_spec (cat_of b) k) as [E|E].
  - exfalso. apply (H b); auto.
  - apply IH. intros x Hx. apply H. now right.
Qed.

Lemma place_exact g b g' done :
  place g b = Ok g' -> Exact g done -> Exact g' (done ++ [b]).
Proof.
  unfold place, Exact. intros P (Hnd & Hex & Hcov).
  assert (forall k, k <> cat_of b -> of_category k b = false) as Hother.
  { intros k Hk. unfold of_category. apply String.eqb_neq. congruence. }
  assert (of_category (cat_of b) b = true) as Hsame
    by apply String.eqb_refl.
  assert (exists v, g' = JsObject.own_set g (cat_of b) v
                    /\ v = filter (of_category (cat_of b)) done ++ [b])
    as (v & -> & Hv).
  { destruct (JsObject.own_get g (cat_of b)) as [items0|] eqn:G.
    - injection P as <-. eexists. split; [reflexivity|]. f_equal.
      apply Hex. now apply own_get_In.
    - destruct (JsObject.inherited (cat_of b)); [discriminate|].
      injection P as <-. eexists. split; [reflexivity|].
      rewrite filter_none; [reflexivity|].
      intros x Hx E. apply (own_get_None_keys _ _ G).
      rewrite <- E. now apply Hcov. }
  split; [now apply own_set_keys_NoDup|]. split.
  - intros k items Hin.
    destruct (@own_set_In_other _ g (cat_of b) v (k, items) Hnd Hin)
      as [E|[Hold Hk]].
    + injection E as -> ->. now rewrite filter_snoc_same.
    + simpl in Hk. rewrite filter_snoc_other by auto. now apply Hex.
  - intros x Hx. apply in_app_or in Hx. destruct Hx as [Hx|[<-|[]]].
    + apply own_set_keys_incl. now apply Hcov.
    + generalize (cat_of b) as k.
      clear. intros k. induction g as [|[k' v'] rest IH]; simpl; [now left|].
      destruct (String.eqb_spec k' k); simpl; auto.
Qed.

Lemma place_all_exact books : forall g g' done,
  place_all g books = Ok g' -> Exact g done -> Exact g' (done ++ books).
Proof.
  induction books as [|b rest IH]; simpl; intros g g' done.
  - intros [= <-]. now rewrite app_nil_r.
  - destruct (place g b) as [g1|] eqn:P; simpl; [|discriminate].
    intros H E. replace (done ++ b :: rest) with ((done ++ [b]) ++ rest)
      by (rewrite <- app_assoc; reflexivity).
    eapply IH; eauto. eapply place_exact; eauto.
Qed.

Lemma seed_exact : Exact seed_groups [].
Proof.
  split; [|split].
  - simpl. repeat constructor; simpl; intuition discriminate.
  - intros k items Hin. simpl in Hin.
    repeat (destruct Hin as [[= <- <-]|Hin]; [reflexivity|]). destruct Hin.
  - intros b [].
Qed.

Lemma seed_keys_kept books : forall g g',
  place_all g books = Ok g' -> incl (JsObject.keys g) (JsObject.keys g').
Proof.
  induction books as [|b rest IH]; simpl; intros g g'.
  - intros [= <-]. apply incl_refl.
  - destruct (place g b) as [g1|] eqn:P; simpl; [|discriminate].
    intros H. eapply incl_tran; [|eapply IH; eauto].
    unfold place in P.
    destruct (JsObject.own_get g (cat_of b)) as [items0|].
    + injection P as <-. apply own_set_keys_incl.
    + destruct (JsObject.inherited (cat_of b)); [discriminate|].
      injection P as <-. apply own_set_keys_incl.
Qed.

Lemma booksByCategory_exact books r :
  booksByCategory books = Ok r -> Exact r books.
Proof.
  intros H. destruct (booksByCategory_buckets _ H) as (g & Hg & _ & P).
  destruct (@place_all_exact books _ _ [] Hg seed_exact) as (Hnd & Hex & Hcov).
  simpl in Hex, Hcov. unfold Exact, JsObject.keys in *.
  split; [|split].
  - apply (Permutation_NoDup (Permutation_map fst (Permutation_sym P)) Hnd).
  - intros k items Hin. apply Hex.
    now apply (Permutation_in _ P).
  - intros b Hb.
    apply (Permutation_in _ (Permutation_map fst (Permutation_sym P))).
    now apply Hcov.
Qed.

Lemma exact_bucket r books k :
  Exact r books -> In k (JsObject.keys r) ->
  In (k, filter (of_category k) books) r.
Proof.
  intros (_ & Hex & _) Hk. unfold JsObject.keys in Hk.
  apply in_map_iff in Hk. destruct Hk as ([k' items] & E & Hin).
  simpl in E. subst k'. now rewrite <- (Hex _ _ Hin).
Qed.

Lemma booksByCategory_names books r :
  booksByCategory books = Ok r ->
  incl defaultCats (JsObject.keys r)
  /\ forall k, In k (JsObject.keys r) ->
       In k defaultCats \/ In k (map cat_of books).
Proof.
  intros H. destruct (booksByCategory_buckets _ H) as (g & Hg & _ & P).
  pose proof (Permutation_map fst P) as Pk. split.
  - intros k Hk. apply (Permutation_in _ (Permutation_sym Pk)).
    apply (seed_keys_kept _ _ Hg). exact Hk.
  - intros k Hk. destruct (place_all_spec _ _ Hg) as (_ & _ & Hkeys).
    apply Hkeys. now apply (Permutation_in _ Pk).
Qed.

Lemma Ok_no_inherited books r :
  booksByCategory books = Ok r ->
  Forall (fun b => JsObject.inherited (cat_of b) = false) books.
Proof.
  intros H. apply Forall_forall. intros b Hb.
  destruct (JsObject.inherited (cat_of b)) eqn:E; [|reflexivity].
  rewrite grouping_throws in H; [discriminate|].
  apply Exists_exists. eauto.
Qed.

(** X1.  Every bucket holds exactly the items of its category, in the order
    they have in the input, and every item's category has its bucket. *)
Theorem bucket_keeps_input_order books r :
  booksByCategory books = Ok r ->
  (forall k items, In (k, items) r -> items = filter (of_category k) books)
  /\ (forall b, In b books ->
        In (cat_of b, filter (of_category (cat_of b)) books) r).
Proof.
  intros H. pose proof (booksByCategory_exact _ H) as E.
  split; [apply E|].
  intros b Hb. apply exact_bucket; [assumption|]. now apply E.
Qed.

Lemma bucket_keeps_input_order_witness :
  booksByCategory Samples.shelf
    = Ok (("1"%string, [Samples.numbered])
          :: ("B"%string, [Samples.lettered])
          :: (uncategorized, [Samples.uncategorizedBook])
          :: Samples.seeded defaultCats)
  /\ In (uncategorized,
         filter (of_category uncategorized) Samples.shelf)
       (("1"%string, [Samples.numbered])
          :: ("B"%string, [Samples.lettered])
          :: (uncategorized, [Samples.uncategorizedBook])
          :: Samples.seeded defaultCats).
Proof.
  assert (booksByCategory Samples.shelf
          = Ok (("1"%string, [Samples.numbered])
                :: ("B"%string, [Samples.lettered])
                :: (uncategorized, [Samples.uncategorizedBook])
                :: Samples.seeded defaultCats)) as H by reflexivity.
  split; [exact H|].
  exact (proj2 (bucket_keeps_input_order Samples.shelf H)
           Samples.uncategorizedBook (or_intror (or_intror (or_introl eq_refl)))).
Defined.

(** X2.  The bucket names are pairwise distinct and include the six default
    categories, so there are never fewer than six buckets. *)
Theorem bucket_names_distinct books r :
  booksByCategory books = Ok r ->
  NoDup (map bucket_name r)
  /\ incl defaultCats (map bucket_name r)
  /\ (6 <= List.length r)%nat.
Proof.
  intros H. destruct (booksByCategory_exact _ H) as (Hnd & _).
  destruct (booksByCategory_names _ H) as (Hincl & _).
  split; [exact Hnd|]. split; [exact Hincl|].
  assert (List.length defaultCats <= List.length (JsObject.keys r))%nat as Hl.
  { apply NoDup_incl_length; [|exact Hincl].
    simpl. repeat constructor; simpl; intuition discriminate. }
  unfold JsObject.keys in Hl. rewrite length_map in Hl. exact Hl.
Qed.

Lemma bucket_names_distinct_witness :
  booksByCategory Samples.twoTies
    = Ok (("1"%string, [Samples.numbered])
          :: ("B"%string, [Samples.lettered])
          :: Samples.seeded defaultCats)
  /\ NoDup (map bucket_name
              (("1"%string, [Samples.numbered])
               :: ("B"%string, [Samples.lettered])
               :: Samples.seeded defaultCats)).
Proof.
  split; [reflexivity|].
  exact (proj1 (bucket_names_distinct Samples.twoTies eq_refl)).
Defined.

(** X3.  Only a default category can have an empty bucket: every other
    bucket holds at least one item. *)
Theorem empty_bucket_is_default books r k :
  booksByCategory books = Ok r ->
  In (k, []) r ->
  In k defaultCats.
Proof.
  intros H Hin.
  destruct (booksByCategory_exact _ H) as (_ & Hex & _).
  destruct (booksByCategory_names _ H) as (_ & Hnames).
  destruct (Hnames k (in_map fst _ _ Hin)) as [Hd|Hc]; [exact Hd|].
  exfalso. apply in_map_iff in Hc. destruct Hc as (b & Hb & Hbin).
  pose proof (Hex _ _ Hin) as E.
  assert (In b (filter (of_category k) books)) as F.
  { apply filter_In. split; [assumption|].
    unfold of_category. now apply String.eqb_eq. }
  rewrite <- E in F. destruct F.
Qed.

Lemma empty_bucket_is_default_witness :
  booksByCategory Samples.twoTies
    = Ok (("1"%string, [Samples.numbered])
          :: ("B"%string, [Samples.lettered])
          :: Samples.seeded defaultCats)
  /\ In ("科幻小說"%string, [])
       (("1"%string, [Samples.numbered])
        :: ("B"%string, [Samples.lettered])
        :: Samples.seeded defaultCats)
  /\ In "科幻小說"%string defaultCats.
Proof.
  assert (In ("科幻小說"%string, @nil Book)
            (("1"%string, [Samples.numbered])
             :: ("B"%string, [Samples.lettered])
             :: Samples.seeded defaultCats)) as Hin
    by (simpl; tauto).
  split; [reflexivity|]. split; [exact Hin|].
  exact (@empty_bucket_is_default Samples.twoTies _ _ eq_refl Hin).
Defined.

(** X4.  The grouping throws exactly when some item's category is the name
    of a property inherited from [Object.prototype]; otherwise it returns. *)
Theorem grouping_throws_iff books :
  booksByCategory books = TypeError
  <-> Exists (fun b => JsObject.inherited (cat_of b) = true) books.
Proof.
  split; [|apply grouping_throws].
  intros H.
  destruct (Forall_Exists_dec
              (fun b => JsObject.inherited (cat_of b) = false)
              (fun b => bool_dec (JsObject.inherited (cat_of b)) false) books)
    as [Hall|Hex].
  - destruct (grouping_partitions Hall) as (r & Hr & _). congruence.
  - eapply Exists_impl; [|exact Hex].
    intros b Hb. cbv beta in Hb. destruct (JsObject.inherited (cat_of b));
      [reflexivity|exfalso; now apply Hb].
Qed.

Lemma place_all_app books1 : forall books2 g g',
  place_all g (books1 ++ books2) = Ok g' ->
  exists g1, place_all g books1 = Ok g1 /\ place_all g1 books2 = Ok g'.
Proof.
  induction books1 as [|b rest IH]; simpl; intros books2 g g' H; [eauto|].
  destruct (place g b) as [g1|] eqn:P; simpl in *; [|discriminate].
  now apply IH.
Qed.

(** X5.  Saving a new book, which the application appends to its list,
    appends it to the bucket of its category and leaves the items of every
    other bucket as they were. *)
Theorem added_book_joins_its_bucket books created r' :
  booksByCategory (App.addBook created books) = Ok r' ->
  exists r,
    booksByCategory books = Ok r
    /\ In (cat_of created,
           filter (of_category (cat_of created)) books ++ [created]) r'
    /\ (forall k items, In (k, items) r -> k <> cat_of created ->
          In (k, items) r').
Proof.
  unfold App.addBook. intros H.
  pose proof (Ok_no_inherited _ H) as Hall.
  apply Forall_app in Hall. destruct Hall as (Hall & _).
  destruct (grouping_partitions Hall) as (r & Hr & _).
  exists r. split; [exact Hr|].
  pose proof (booksByCategory_exact _ H) as E'.
  pose proof (booksByCategory_exact _ Hr) as E.
  split.
  - assert (In created (books ++ [created])) as Hin
      by (apply in_or_app; right; now left).
    destruct E' as (_ & _ & Hcov).
    pose proof (exact_bucket (cat_of created)
                  (booksByCategory_exact _ H) (Hcov _ Hin)) as Hb.
    rewrite filter_snoc_same in Hb by apply String.eqb_refl. exact Hb.
  - intros k items Hin Hk.
    destruct E as (_ & Hex & _). rewrite (Hex _ _ Hin).
    assert (In k (JsObject.keys r')) as Hk'.
    { destruct (booksByCategory_names _ H) as (Hd' & _).
      destruct (booksByCategory_names _ Hr) as (_ & Hn).
      destruct (Hn k (in_map fst _ _ Hin)) as [Hd|Hc]; [now apply Hd'|].
      apply in_map_iff in Hc. destruct Hc as (b & <- & Hb).
      apply E'. apply in_or_app. now left. }
    pose proof (exact_bucket k E' Hk') as Hb.
    rewrite filter_snoc_other in Hb; [exact Hb|].
    unfold of_category. apply String.eqb_neq. congruence.
Qed.

Lemma added_book_joins_its_bucket_witness :
  booksByCategory (App.addBook Samples.numbered [Samples.lettered])
    = Ok (("1"%string, [Samples.numbered])
          :: ("B"%string, [Samples.lettered])
          :: Samples.seeded defaultCats)
  /\ exists r, booksByCategory [Samples.lettered] = Ok r.
Proof.
  split; [reflexivity|].
  destruct (@added_book_joins_its_bucket [Samples.lettered] Samples.numbered
              _ eq_refl) as (r & Hr & _).
  exists r. exact Hr.
Defined.

Lemma filter_filter_comm (A : Type) (f g : A -> bool) l :
  filter f (filter g l) = filter g (filter f l).
Proof.
  induction l as [|a rest IH]; simpl; [reflexivity|].
  destruct (f a) eqn:F, (g a) eqn:G; simpl;
    rewrite ?F, ?G; now rewrite IH.
Qed.

(** X6.  Deleting a book by id, as the application does, never makes the
    grouping throw, creates no bucket, and turns every bucket that is left
    into its former self without the books of that id. *)
Theorem deleted_book_leaves_buckets books r i :
  booksByCategory books = Ok r ->
  exists r',
    booksByCategory (App.deleteBook i books) = Ok r'
    /\ (List.length r' <= List.length r)%nat
    /\ forall k items', In (k, items') r' ->
         exists items, In (k, items) r
                       /\ items' = App.deleteBook i items.
Proof.
  intros H. pose proof (Ok_no_inherited _ H) as Hall.
  assert (Forall (fun b => JsObject.inherited (cat_of b) = false)
            (App.deleteBook i books)) as Hall'.
  { apply Forall_forall. intros b Hb. apply filter_In in Hb.
    rewrite Forall_forall in Hall. now apply Hall. }
  destruct (grouping_partitions Hall') as (r' & Hr' & _).
  exists r'. split; [exact Hr'|].
  pose proof (booksByCategory_exact _ H) as E.
  pose proof (booksByCategory_exact _ Hr') as E'.
  assert (incl (JsObject.keys r') (JsObject.keys r)) as Hincl.
  { intros k Hk.
    destruct (booksByCategory_names _ Hr') as (_ & Hn).
    destruct (booksByCategory_names _ H) as (Hd & _).
    destruct (Hn k Hk) as [Hdef|Hc]; [now apply Hd|].
    apply in_map_iff in Hc. destruct Hc as (b & <- & Hb).
    apply filter_In in Hb. now apply E. }
  split.
  - assert (List.length (JsObject.keys r') <= List.length (JsObject.keys r))%nat
      as Hl by (apply NoDup_incl_length; [apply E'|exact Hincl]).
    unfold JsObject.keys in Hl. rewrite !length_map in Hl. exact Hl.
  - intros k items' Hin.
    exists (filter (of_category k) books). split.
    + apply exact_bucket; [assumption|].
      apply Hincl. now apply (in_map fst) in Hin.
    + destruct E' as (_ & Hex' & _). rewrite (Hex' _ _ Hin).
      unfold App.deleteBook. apply filter_filter_comm.
Qed.

Lemma deleted_book_leaves_buckets_witness :
  booksByCategory Samples.twoTies
    = Ok (("1"%string, [Samples.numbered])
          :: ("B"%string, [Samples.lettered])
          :: Samples.seeded defaultCats)
  /\ exists r', booksByCategory (App.deleteBook "b2" Samples.twoTies) = Ok r'.
Proof.
  split; [reflexivity|].
  destruct (@deleted_book_leaves_buckets Samples.twoTies _ "b2"%string eq_refl)
    as (r' & Hr' & _).
  exists r'. exact Hr'.
Defined.
End GroupingOrder.

(** ** CategoryView *)

Section Sorting.
Variable A : Type.
Variable cmp : A -> A -> Z.

Lemma sort_insert_permutation (e : A) l :
  Permutation (sort_insert cmp e l) (e :: l).
Proof.
  induction l as [|h rest IH]; simpl; [reflexivity|].
  destruct (Z.ltb _ _); [|reflexivity].
  rewrite IH. apply perm_swap.
Qed.

Lemma array_sort_permutation (l : list A) :
  Permutation (array_sort cmp l) l.
Proof.
  induction l as [|h rest IH]; simpl; [reflexivity|].
  rewrite sort_insert_permutation. now constructor.
Qed.
End Sorting.

Section CategoryStats.
Import LayerGrouper Notions CategoryView.

Lemma cat_of_nonempty b : cat_of b <> EmptyString.
Proof.
  unfold cat_of. destruct (category b) as [c|]; [|discriminate].
  destruct (String.eqb_spec c EmptyString); [discriminate|assumption].
Qed.

Lemma filteredBooks_category k books :
  k <> EmptyString ->
  filteredBooks (Some k) books = filter (of_category k) books.
Proof.
  intros Hk. unfold filteredBooks.
  apply String.eqb_neq in Hk. now rewrite Hk.
Qed.

Lemma cell_total_bump counts k n :
  JsObject.own_get counts k = Some (Num n) ->
  cell_total (JsObject.own_set counts k (Num (n + 1)))
  = S (cell_total counts).
Proof.
  induction counts as [|[k' c'] rest IH]; simpl; [discriminate|].
  destruct (String.eqb k' k); simpl.
  - intros [= ->]. lia.
  - intros H. rewrite (IH H). destruct c'; lia.
Qed.

Lemma cell_total_snoc counts k :
  cell_total (counts ++ [(k, Num 1)]) = S (cell_total counts).
Proof.
  induction counts as [|[k' c'] rest IH]; simpl; [reflexivity|].
  rewrite IH. destruct c'; lia.
Qed.

Lemma cell_total_perm c1 c2 :
  Permutation c1 c2 -> cell_total c1 = cell_total c2.
Proof.
  induction 1 as [|[k c] l l' _ IH|[k1 c1'] [k2 c2'] l|l l' l'' _ IH1 _ IH2];
    simpl; try congruence.
  - destruct c; lia.
  - destruct c1', c2'; lia.
Qed.

Lemma tally_step counts b done :
  JsObject.inherited (cat_of b) = false ->
  Tallied counts done -> Tallied (tally counts b) (done ++ [b]).
Proof.
  intros Hinh (Hnd & Hex & Hcov & Htot).
  assert (of_category (cat_of b) b = true) as Hsame by apply String.eqb_refl.
  assert (String.eqb (cat_of b) "__proto__" = false) as Hproto.
  { apply String.eqb_neq. intros E. rewrite E in Hinh. discriminate. }
  assert (tally counts b
          = JsObject.own_set counts (cat_of b) (counted (done ++ [b]) (cat_of b))
          /\ cell_total (tally counts b) = S (cell_total counts))
    as (Hstep & Htot').
  { unfold tally, counted. rewrite filter_snoc_same, length_app by assumption.
    simpl.
    destruct (JsObject.own_get counts (cat_of b)) as [c|] eqn:G.
    - destruct (Hex _ _ (own_get_In _ _ G)) as (-> & _).
      unfold counted in *. split; [reflexivity|].
      now apply cell_total_bump.
    - rewrite Hproto, Hinh.
      rewrite (filter_none (k := cat_of b)).
      + split; [reflexivity|].
        rewrite own_set_fresh by assumption. apply cell_total_snoc.
      + intros x Hx E. apply (own_get_None_keys _ _ G).
        rewrite <- E. now apply Hcov. }
  rewrite Hstep in *. clear Hstep.
  split; [now apply own_set_keys_NoDup|]. split; [|split].
  - intros k c Hin.
    destruct (@own_set_In_other _ counts (cat_of b) _ (k, c) Hnd Hin)
      as [E|[Hold Hk]].
    + injection E as -> ->. split; [reflexivity|].
      rewrite map_app. apply in_or_app. right. now left.
    + simpl in Hk. destruct (Hex _ _ Hold) as (-> & Hkin). split.
      * unfold counted. rewrite filter_snoc_other; [reflexivity|].
        unfold of_category. apply String.eqb_neq. congruence.
      * rewrite map_app. apply in_or_app. now left.
  - intros x Hx. apply in_app_or in Hx. destruct Hx as [Hx|[<-|[]]].
    + apply own_set_keys_incl. now apply Hcov.
    + generalize (counted (done ++ [b]) (cat_of b)) as v.
      generalize (cat_of b) as k.
      clear. intros k v. induction counts as [|[k' v'] rest IH]; simpl;
        [now left|].
      destruct (String.eqb_spec k' k); simpl; auto.
  - rewrite Htot', Htot, length_app. simpl. lia.
Qed.

Lemma tally_all_spec books : forall counts done,
  Forall (fun b => JsObject.inherited (cat_of b) = false) books ->
  Tallied counts done ->
  Tallied (fold_left tally books counts) (done ++ books).
Proof.
  induction books as [|b rest IH]; simpl; intros counts done Hall T.
  - now rewrite app_nil_r.
  - inversion Hall as [|? ? Hb Hrest]; subst.
    replace (done ++ b :: rest) with ((done ++ [b]) ++ rest)
      by (rewrite <- app_assoc; reflexivity).
    apply IH; [assumption|]. now apply tally_step.
Qed.

Lemma numeric_cells cs :
  Forall (fun e => exists n, snd e = Num n) cs ->
  exists l, numeric cs = Some l /\ cs = map as_cell l.
Proof.
  induction cs as [|[k c] rest IH]; intros Hall.
  - exists []. auto.
  - inversion Hall as [|? ? (n & Hn) Hrest]; subst. simpl in Hn. subst c.
    destruct (IH Hrest) as (l & Hl & ->).
    exists ((k, n) :: l). simpl. rewrite Hl. auto.
Qed.

Lemma total_cells l : cell_total (map as_cell l) = total l.
Proof.
  induction l as [|[k n] rest IH]; simpl; [reflexivity|]. now rewrite IH.
Qed.

(** The table [categoryStats] returns, when no category is the name of an
    inherited property. *)
Lemma categoryStats_table books :
  Forall (fun b => JsObject.inherited (cat_of b) = false) books ->
  exists stats,
    categoryStats books = Some stats
    /\ Permutation (map as_cell stats) (tally_all books)
    /\ Tallied (tally_all books) books.
Proof.
  intros Hall.
  assert (Tallied (tally_all books) books) as T.
  { apply (tally_all_spec (counts := []) (done := []) Hall).
    repeat split; simpl; try constructor; intros; contradiction. }
  pose proof (entries_perm (tally_all books)) as P.
  destruct (@numeric_cells (JsObject.entries (tally_all books)))
    as (l & Hl & El).
  { apply (Permutation_Forall (Permutation_sym P)).
    apply Forall_forall. intros [k c] Hin.
    destruct T as (_ & Hex & _). destruct (Hex _ _ Hin) as (-> & _).
    simpl. unfold counted. eauto. }
  exists (array_sort by_count_desc l). unfold categoryStats. rewrite Hl.
  split; [reflexivity|]. split; [|exact T].
  rewrite (Permutation_map as_cell (array_sort_permutation by_count_desc l)).
  rewrite <- El. exact P.
Qed.

(** X7.  When no category is the name of an inherited property, the
    category table lists every category of the books exactly once, each
    with the number of books [filteredBooks] shows for it (at least one),
    and the numbers add up to the number of books. *)
Theorem category_counts_match_books books :
  Forall (fun b => JsObject.inherited (cat_of b) = false) books ->
  exists stats,
    categoryStats books = Some stats
    /\ NoDup (map fst stats)
    /\ (forall k n, In (k, n) stats ->
          n = List.length (filteredBooks (Some k) books) /\ (1 <= n)%nat)
    /\ (forall b, In b books -> In (cat_of b) (map fst stats))
    /\ total stats = List.length books.
Proof.
  intros Hall.
  destruct (categoryStats_table Hall) as (stats & Hs & P & T).
  destruct T as (Hnd & Hex & Hcov & Htot).
  exists stats. split; [exact Hs|].
  assert (map fst (map as_cell stats) = map fst stats) as Hfst
    by (rewrite map_map; reflexivity).
  pose proof (Permutation_map fst P) as Pk. rewrite Hfst in Pk.
  split; [|split; [|split]].
  - apply (Permutation_NoDup (Permutation_sym Pk) Hnd).
  - intros k n Hin.
    assert (In (k, Num n) (tally_all books)) as Hc.
    { apply (Permutation_in _ P). now apply (in_map as_cell) in Hin. }
    destruct (Hex _ _ Hc) as (E & Hk). unfold counted in E.
    injection E as ->.
    apply in_map_iff in Hk. destruct Hk as (b & <- & Hb).
    rewrite filteredBooks_category by apply cat_of_nonempty.
    split; [reflexivity|].
    assert (In b (filter (of_category (cat_of b)) books)) as F
      by (apply filter_In; split; [assumption|apply String.eqb_refl]).
    destruct (filter (of_category (cat_of b)) books); [destruct F|simpl; lia].
  - intros b Hb. apply (Permutation_in _ (Permutation_sym Pk)).
    now apply Hcov.
  - rewrite <- total_cells, (cell_total_perm P). exact Htot.
Qed.

Lemma category_counts_match_books_witness :
  Forall (fun b => JsObject.inherited (cat_of b) = false) Samples.shelf
  /\ exists stats, categoryStats Samples.shelf = Some stats
                   /\ total stats = 3%nat.
Proof.
  assert (Forall (fun b => JsObject.inherited (cat_of b) = false)
            Samples.shelf) as H by (repeat constructor).
  split; [exact H|].
  destruct (category_counts_match_books H) as (stats & Hs & _ & _ & _ & Ht).
  exists stats. split; [exact Hs|exact Ht].
Defined.

(** X8.  The layer view and the category view agree: every bucket of
    [booksByCategory] holds exactly the books [filteredBooks] shows for its
    name, in the same order, and every row of the category table is a
    bucket of that size. *)
Theorem layers_agree_with_category_view books r :
  booksByCategory books = Ok r ->
  (forall k items, In (k, items) r -> items = filteredBooks (Some k) books)
  /\ exists stats,
       categoryStats books = Some stats
       /\ forall k n, In (k, n) stats ->
            exists items, In (k, items) r /\ List.length items = n.
Proof.
  intros H. pose proof (booksByCategory_exact _ H) as E.
  destruct (booksByCategory_names _ H) as (Hd & Hn).
  split.
  - intros k items Hin. rewrite filteredBooks_category.
    + now apply E.
    + destruct (Hn k (in_map fst _ _ Hin)) as [Hdef|Hc].
      * simpl in Hdef.
        repeat (destruct Hdef as [<-|Hdef]; [discriminate|]). destruct Hdef.
      * apply in_map_iff in Hc. destruct Hc as (b & <- & _).
        apply cat_of_nonempty.
  - destruct (categoryStats_table (Ok_no_inherited _ H))
      as (stats & Hs & P & T).
    exists stats. split; [exact Hs|].
    intros k n Hin.
    assert (In (k, Num n) (tally_all books)) as Hc.
    { apply (Permutation_in _ P). now apply (in_map as_cell) in Hin. }
    destruct T as (_ & Hex & _). destruct (Hex _ _ Hc) as (Ec & Hk).
    unfold counted in Ec. injection Ec as ->.
    exists (filter (of_category k) books). split; [|reflexivity].
    apply exact_bucket; [assumption|].
    apply in_map_iff in Hk. destruct Hk as (b & <- & Hb). now apply E.
Qed.

Lemma layers_agree_with_category_view_witness :
  booksByCategory Samples.twoTies
    = Ok (("1"%string, [Samples.numbered])
          :: ("B"%string, [Samples.lettered])
          :: Samples.seeded defaultCats)
  /\ [Samples.lettered] = filteredBooks (Some "B"%string) Samples.twoTies.
Proof.
  split; [reflexivity|].
  apply (proj1 (@layers_agree_with_category_view Samples.twoTies _ eq_refl)
           "B"%string [Samples.lettered]).
  simpl. tauto.
Defined.
End CategoryStats.

(** ** CoverColorHash *)

Section CoverColorFacts.
Import CoverColor.
Local Open Scope Z_scope.

Lemma toInt32_congruent n : congruent32 (toInt32 n) n.
Proof.
  unfold congruent32, toInt32.
  exists (- ((n + 2 ^ 31) / 2 ^ 32)).
  pose proof (Z.div_mod (n + 2 ^ 31) (2 ^ 32)). lia.
Qed.

Lemma toInt32_range n : - 2 ^ 31 <= toInt32 n < 2 ^ 31.
Proof.
  unfold toInt32.
  pose proof (Z.mod_pos_bound (n + 2 ^ 31) (2 ^ 32)). lia.
Qed.

Lemma mix_congruent h1 h2 c :
  congruent32 h1 h2 -> congruent32 (mix h1 c) (31 * h2 + c).
Proof.
  intros (k & ->). unfold mix, shl5.
  destruct (toInt32_congruent (h2 + k * 2 ^ 32)) as (k1 & E1).
  destruct (toInt32_congruent (toInt32 (h2 + k * 2 ^ 32) * 2 ^ 5))
    as (k2 & E2).
  rewrite E2, E1. exists (k2 + 32 * k1 + 31 * k). lia.
Qed.

Lemma hash_congruent title : forall h1 h2,
  congruent32 h1 h2 ->
  congruent32 (fold_left mix title h1)
              (fold_left (fun h c => 31 * h + c) title h2).
Proof.
  induction title as [|c rest IH]; simpl; intros h1 h2 H; [exact H|].
  apply IH. now apply mix_congruent.
Qed.

Lemma masked_mod h p :
  congruent32 h p -> masked h = p mod 2 ^ 24.
Proof.
  intros (k & ->). unfold masked.
  change 16777215 with (Z.ones 24). rewrite Z.land_ones by lia.
  destruct (toInt32_congruent (p + k * 2 ^ 32)) as (k1 & ->).
  replace (p + k * 2 ^ 32 + k1 * 2 ^ 32)
    with (p + ((k + k1) * 2 ^ 8) * 2 ^ 24) by lia.
  apply Z.mod_add. lia.
Qed.

Lemma masked_range h : 0 <= masked h < 2 ^ 24.
Proof.
  unfold masked. change 16777215 with (Z.ones 24).
  rewrite Z.land_ones by lia. apply Z.mod_pos_bound. lia.
Qed.

Lemma digit_upper d :
  0 <= d < 16 ->
  upper_hex (upper (digit16 d)) /\ hex_value (upper (digit16 d)) = Some d.
Proof.
  intros Hd.
  assert (d = 0 \/ d = 1 \/ d = 2 \/ d = 3 \/ d = 4 \/ d = 5 \/ d = 6
          \/ d = 7 \/ d = 8 \/ d = 9 \/ d = 10 \/ d = 11 \/ d = 12
          \/ d = 13 \/ d = 14 \/ d = 15) as H by lia.
  unfold upper_hex.
  repeat (destruct H as [->|H]; [split; [simpl; tauto|reflexivity]|]).
  subst d. split; [simpl; tauto|reflexivity].
Qed.

Lemma from_hex_app ds : forall rest acc v,
  from_hex ds acc = Some v -> from_hex (ds ++ rest) acc = from_hex rest v.
Proof.
  induction ds as [|c ds IH]; simpl; intros rest acc v.
  - now intros [= ->].
  - destruct (hex_value c); [apply IH|discriminate].
Qed.

Lemma hex_go_S fuel n acc :
  hex_go (S fuel) n acc
  = if n / 16 =? 0 then digit16 (n mod 16) :: acc
    else hex_go fuel (n / 16) (digit16 (n mod 16) :: acc).
Proof. reflexivity. Qed.

(** The digits [hex_go] puts in front of [acc]. *)
Lemma hex_go_digits fuel : forall n acc,
  0 <= n < 2 ^ Z.of_nat (S fuel) ->
  exists ds,
    hex_go (S fuel) n acc = ds ++ acc
    /\ (1 <= List.length ds)%nat
    /\ Forall upper_hex (map upper ds)
    /\ (forall a, from_hex (map upper ds) a
                  = Some (16 ^ Z.of_nat (List.length ds) * a + n))
    /\ n < 16 ^ Z.of_nat (List.length ds)
    /\ (List.length ds = 1%nat
        \/ 16 ^ (Z.of_nat (List.length ds) - 1) <= n).
Proof.
  assert (forall n,
            n / 16 = 0 -> 0 <= n ->
            let ds := [digit16 (n mod 16)] in
            (1 <= List.length ds)%nat
            /\ Forall upper_hex (map upper ds)
            /\ (forall a, from_hex (map upper ds) a
                          = Some (16 ^ Z.of_nat (List.length ds) * a + n))
            /\ n < 16 ^ Z.of_nat (List.length ds)
            /\ (List.length ds = 1%nat
                \/ 16 ^ (Z.of_nat (List.length ds) - 1) <= n))
    as Hsingle.
  { intros n Hq Hn0.
    assert (0 <= n mod 16 < 16) as Hd by (apply Z.mod_pos_bound; lia).
    pose proof (Z.div_mod n 16 ltac:(lia)) as Hdm.
    destruct (digit_upper Hd) as (Hu & Hv).
    split; [simpl; lia|].
    split; [constructor; [exact Hu|constructor]|].
    split; [|split].
    - intros a. simpl. rewrite Hv. f_equal. lia.
    - simpl. lia.
    - now left. }
  induction fuel as [|fuel IH]; intros n acc Hn.
  - assert (n / 16 = 0) as Hq by (apply Z.div_small; simpl in Hn; lia).
    exists [digit16 (n mod 16)]. split.
    + rewrite hex_go_S, Hq. reflexivity.
    + apply (Hsingle n Hq). lia.
  - rewrite hex_go_S.
    assert (0 <= n mod 16 < 16) as Hd by (apply Z.mod_pos_bound; lia).
    pose proof (Z.div_mod n 16 ltac:(lia)) as Hdm.
    destruct (digit_upper Hd) as (Hu & Hv).
    destruct (Z.eqb_spec (n / 16) 0) as [Hq|Hq].
    + exists [digit16 (n mod 16)]. split; [reflexivity|].
      apply (Hsingle n Hq). lia.
    + assert (0 <= n / 16 < 2 ^ Z.of_nat (S fuel)) as Hq'.
      { rewrite (Nat2Z.inj_succ (S fuel)), Z.pow_succ_r in Hn by lia.
        assert (0 <= n / 16) by (apply Z.div_pos; lia). lia. }
      destruct (IH (n / 16) (digit16 (n mod 16) :: acc) Hq')
        as (ds & E & Hlen & Hall & Hval & Hlt & Hge).
      exists (ds ++ [digit16 (n mod 16)]).
      rewrite E, <- app_assoc, length_app, map_app.
      cbn [List.length map app].
      replace (Z.of_nat (List.length ds + 1)) with (Z.of_nat (List.length ds) + 1)
        by lia.
      rewrite Z.pow_add_r by lia. change (16 ^ 1) with 16.
      set (X := 16 ^ Z.of_nat (List.length ds)) in *.
      split; [reflexivity|]. split; [lia|].
      split; [apply Forall_app; split;
                [assumption|constructor; [exact Hu|constructor]]|].
      split; [|split].
      * intros a. rewrite (from_hex_app _ _ _ (Hval a)).
        cbn [from_hex]. rewrite Hv. f_equal. lia.
      * lia.
      * right.
        assert (16 ^ (Z.of_nat (List.length ds) + 1 - 1) = X) as ->
          by (unfold X; f_equal; lia).
        assert (X = 16 * 16 ^ (Z.of_nat (List.length ds) - 1)) as HX.
        { unfold X. rewrite <- Z.pow_succ_r by lia. f_equal. lia. }
        destruct Hge as [Hone|Hge]; [|lia].
        rewrite Hone in HX. change (16 ^ (Z.of_nat 1 - 1)) with 1 in HX. lia.
Qed.

Lemma toString16_digits n :
  0 <= n < 16 ^ 6 ->
  exists ds,
    toString16 n = ds
    /\ (1 <= List.length ds <= 6)%nat
    /\ Forall upper_hex (map upper ds)
    /\ from_hex (map upper ds) 0 = Some n.
Proof.
  intros Hn. unfold toString16.
  destruct (@hex_go_digits (Z.to_nat (Z.log2 n)) n [])
    as (ds & E & Hlen & Hall & Hval & Hlt & Hge).
  { split; [lia|].
    rewrite Nat2Z.inj_succ, Z2Nat.id by apply Z.log2_nonneg.
    destruct (Z.eq_dec n 0) as [->|Hnz]; [reflexivity|].
    apply Z.log2_spec. lia. }
  exists ds. rewrite E, app_nil_r. split; [reflexivity|].
  split; [|split; [assumption|]].
  - split; [assumption|].
    destruct Hge as [Hone|Hge]; [lia|].
    + destruct (le_lt_dec (List.length ds) 6) as [|Hbig]; [assumption|].
      exfalso.
      assert (16 ^ 6 <= 16 ^ (Z.of_nat (List.length ds) - 1))
        by (apply Z.pow_le_mono_r; lia).
      lia.
  - rewrite Hval. f_equal. lia.
Qed.

Lemma zeros_prefix k :
  let pad := firstn k (list_ascii_of_string "00000") in
  List.length pad = Nat.min k 5
  /\ Forall upper_hex pad
  /\ forall rest, from_hex (pad ++ rest) 0 = from_hex rest 0.
Proof.
  do 6 (destruct k as [|k];
        [repeat split; repeat constructor; unfold upper_hex; simpl; tauto|]).
  repeat split; repeat constructor; unfold upper_hex; simpl; tauto.
Qed.

Lemma string_of_list_length l :
  String.length (string_of_list_ascii l) = List.length l.
Proof. induction l as [|c rest IH]; simpl; congruence. Qed.

Lemma cover_color_digits title :
  exists digits,
    getCoverColor title = String "#" (string_of_list_ascii digits)
    /\ List.length digits = 6%nat
    /\ Forall upper_hex digits
    /\ from_hex digits 0 = Some (masked (hashOf title)).
Proof.
  unfold getCoverColor.
  destruct (@toString16_digits (masked (hashOf title)) (masked_range _))
    as (ds & -> & Hlen & Hall & Hval).
  rewrite length_map. unfold substring0.
  destruct (zeros_prefix (Z.to_nat (6 - Z.of_nat (List.length ds))))
    as (Hpad & Hzero & Hskip).
  eexists. split; [reflexivity|]. split; [|split].
  - rewrite length_app, Hpad, length_map. lia.
  - apply Forall_app. split; assumption.
  - rewrite Hskip. exact Hval.
Qed.

(** X9.  For every title the cover colour is [#] followed by exactly six
    upper-case hexadecimal digits: short values are padded with zeros and
    nothing is ever cut off. *)
Theorem cover_color_is_six_hex_digits title :
  String.length (getCoverColor title) = 7%nat
  /\ exists digits,
       getCoverColor title = String "#" (string_of_list_ascii digits)
       /\ List.length digits = 6%nat
       /\ Forall upper_hex digits.
Proof.
  destruct (cover_color_digits title) as (digits & E & Hlen & Hall & _).
  split.
  - rewrite E. simpl. now rewrite string_of_list_length, Hlen.
  - exists digits. auto.
Qed.

(** X10.  For a title of fewer than 2^21 code units - for which the sums
    of the loop are exact - the cover colour, read back as a number, is the
    title's polynomial hash (multiplier 31 over the code units) modulo
    2^24: the 32-bit wrap of the shift and the sign of the accumulator do
    not show in the colour. *)
Theorem cover_color_is_polynomial_hash title :
  Forall code_unit title ->
  Z.of_nat (List.length title) < 2 ^ 21 ->
  colorValue (getCoverColor title) = Some (polynomial title mod 2 ^ 24).
Proof.
  intros _ _.
  destruct (cover_color_digits title) as (digits & E & Hlen & _ & Hval).
  unfold colorValue. rewrite E. cbn [list_ascii_of_string].
  rewrite list_ascii_of_string_of_list_ascii, Hlen. simpl.
  rewrite Hval. f_equal. apply masked_mod.
  unfold hashOf, polynomial. apply hash_congruent. exists 0. lia.
Qed.

Lemma cover_color_is_polynomial_hash_witness :
  Forall code_unit Samples.dune
  /\ Z.of_nat (List.length Samples.dune) < 2 ^ 21
  /\ colorValue (getCoverColor Samples.dune) = Some 2141736.
Proof.
  assert (Forall code_unit Samples.dune) as H0
    by (repeat constructor; unfold code_unit; lia).
  assert (Z.of_nat (List.length Samples.dune) < 2 ^ 21) as H1 by reflexivity.
  split; [exact H0|]. split; [exact H1|].
  exact (cover_color_is_polynomial_hash H0 H1).
Defined.

Lemma mix_bound h c :
  code_unit c -> Z.abs (mix h c) <= Z.abs h + (2 ^ 31 + 65535).
Proof.
  unfold code_unit, mix, shl5. intros Hc.
  pose proof (toInt32_range (toInt32 h * 2 ^ 5)). lia.
Qed.

Lemma hash_bound title : forall h,
  Forall code_unit title ->
  Z.abs (fold_left mix title h)
  <= Z.abs h + Z.of_nat (List.length title) * (2 ^ 31 + 65535).
Proof.
  induction title as [|c rest IH]; intros h Hall.
  - simpl. lia.
  - inversion Hall as [|? ? Hc Hrest]; subst.
    cbn [fold_left List.length].
    pose proof (IH (mix h c) Hrest). pose proof (mix_bound h Hc).
    rewrite Nat2Z.inj_succ. lia.
Qed.

Lemma Forall_prefix (A : Type) (P : A -> Prop) n : forall l,
  Forall P l -> Forall P (firstn n l).
Proof.
  induction n as [|n IH]; intros l Hall; [constructor|].
  destruct Hall as [|a rest Ha Hrest]; simpl; constructor; auto.
Qed.

(** X11.  The accumulator of the hash grows by less than 2^31 + 2^16 per
    code unit, so for a title of fewer than 2^21 code units it stays a
    safe integer (below 2^53 in absolute value) throughout. *)
Theorem cover_hash_stays_safe_integer title :
  Forall code_unit title ->
  Z.of_nat (List.length title) < 2 ^ 21 ->
  forall n, Z.abs (hashOf (firstn n title)) < 2 ^ 53.
Proof.
  intros Hall Hlen n. unfold hashOf.
  pose proof (@hash_bound (firstn n title) 0
                (Forall_prefix n Hall)) as Hb.
  assert (Z.of_nat (List.length (firstn n title))
          <= Z.of_nat (List.length title)) as Hn.
  { rewrite length_firstn. lia. }
  change (Z.abs 0) with 0 in Hb.
  assert (Z.of_nat (List.length (firstn n title)) * (2 ^ 31 + 65535)
          <= 2 ^ 21 * (2 ^ 31 + 65535)) as Hm.
  { apply Z.mul_le_mono_nonneg_r; lia. }
  assert (2 ^ 21 * (2 ^ 31 + 65535) < 2 ^ 53) by reflexivity.
  lia.
Qed.

Lemma cover_hash_stays_safe_integer_witness :
  Forall code_unit Samples.dune
  /\ Z.of_nat (List.length Samples.dune) < 2 ^ 21
  /\ Z.abs (hashOf (firstn 4 Samples.dune)) < 2 ^ 53.
Proof.
  assert (Forall code_unit Samples.dune) as H0
    by (repeat constructor; unfold code_unit; lia).
  assert (Z.of_nat (List.length Samples.dune) < 2 ^ 21) as H1 by reflexivity.
  split; [exact H0|]. split; [exact H1|].
  exact (cover_hash_stays_safe_integer H0 H1 4).
Defined.
End CoverColorFacts.

(** ** Compositor and navigation buttons *)

Section CompositorFacts.
Import Navigation Compositor.

Lemma indices_snoc n : indices (S n) = indices n ++ [Z.of_nat n].
Proof. unfold indices. now rewrite seq_S, map_app. Qed.

Lemma indices_range n i : In i (indices n) <-> (0 <= i < Z.of_nat n)%Z.
Proof.
  unfold indices. rewrite in_map_iff. split.
  - intros (k & <- & Hk). apply in_seq in Hk. lia.
  - intros Hi. exists (Z.to_nat i). split; [lia|]. apply in_seq. lia.
Qed.

Lemma indices_hits n a :
  List.length (filter (fun i => (i =? a)%Z) (indices n))
  = if ((0 <=? a) && (a <? Z.of_nat n))%Z then 1%nat else 0%nat.
Proof.
  induction n as [|n IH].
  - simpl. destruct (Z.leb_spec 0 a); simpl; [|reflexivity].
    destruct (Z.ltb_spec a 0); [lia|reflexivity].
  - rewrite indices_snoc, filter_app, length_app, IH. cbn [filter].
    destruct (Z.eqb_spec (Z.of_nat n) a) as [Heq|Hne];
      destruct (Z.leb_spec 0 a);
      destruct (Z.ltb_spec a (Z.of_nat n));
      destruct (Z.ltb_spec a (Z.of_nat (S n)));
      cbn [andb List.length Nat.add]; lia.
Qed.

Lemma filter_layers n s :
  filter pointerEvents (layers n s)
  = map (layerStyle (isWarping s) (activeLayer s))
      (filter (fun i => (i =? activeLayer s)%Z) (indices n)).
Proof.
  unfold layers. induction (indices n) as [|i rest IH]; simpl; [reflexivity|].
  destruct (i =? activeLayer s)%Z; simpl; now rewrite IH.
Qed.

(** X12.  While the active index is within the bucket list, exactly one
    layer accepts pointer input, and it is the one drawn at full opacity
    and scale, without distance blur, at depth offset 0. *)
Theorem exactly_one_interactive_layer n s :
  in_range n s ->
  List.length (filter pointerEvents (layers n s)) = 1%nat
  /\ Forall (fun l => pointerEvents l = true ->
                      opacity l = 1 /\ scale l = 1 /\ blur l = 0%Z
                      /\ zOffset l = 0%Z)
       (layers n s).
Proof.
  unfold in_range. intros Hs. split.
  - rewrite filter_layers, length_map, indices_hits.
    destruct (Z.leb_spec 0 (activeLayer s)); [|lia].
    destruct (Z.ltb_spec (activeLayer s) (Z.of_nat n)); [reflexivity|lia].
  - unfold layers. apply Forall_map, Forall_forall. intros i _.
    unfold layerStyle. simpl.
    destruct (Z.eqb_spec i (activeLayer s)) as [->|]; [|discriminate].
    intros _. repeat split. lia.
Qed.

Lemma exactly_one_interactive_layer_witness :
  in_range 6 initial
  /\ List.length (filter pointerEvents (layers 6 initial)) = 1%nat.
Proof.
  assert (in_range 6 initial) as H by (unfold in_range; simpl; lia).
  split; [exact H|].
  exact (proj1 (@exactly_one_interactive_layer 6 initial H)).
Defined.

(** X13.  When the active index is at or beyond the bucket count, every
    layer is fully transparent and none accepts pointer input: the layer
    container shows nothing. *)
Theorem active_beyond_buckets_shows_nothing n s :
  (Z.of_nat n <= activeLayer s)%Z ->
  Forall (fun l => pointerEvents l = false /\ opacity l = 0) (layers n s).
Proof.
  intros Hs. unfold layers. apply Forall_map, Forall_forall.
  intros i Hi. apply indices_range in Hi. unfold layerStyle. simpl.
  destruct (Z.eqb_spec i (activeLayer s)); [lia|].
  destruct (Z.ltb_spec i (activeLayer s)); [auto|lia].
Qed.

Lemma active_beyond_buckets_shows_nothing_witness :
  (Z.of_nat 6 <= activeLayer (run 6 1024 [GoTo 99] initial))%Z
  /\ Forall (fun l => pointerEvents l = false /\ opacity l = 0)
       (layers 6 (run 6 1024 [GoTo 99] initial)).
Proof.
  assert (Z.of_nat 6 <= activeLayer (run 6 1024 [GoTo 99] initial))%Z as H
    by (simpl; lia).
  split; [exact H|].
  exact (@active_beyond_buckets_shows_nothing 6 _ H).
Defined.

(** X14.  A layer's opacity is always between 0 and 1; layers behind the
    active one are transparent, and layers ahead fade with their distance,
    never above 0.05. *)
Theorem layer_opacity_fades w a i j :
  (0 <= opacity (layerStyle w a i) /\ opacity (layerStyle w a i) <= 1)
  /\ ((i < a)%Z -> opacity (layerStyle w a i) = 0)
  /\ ((a < i)%Z -> 0 < opacity (layerStyle w a i)
                  /\ opacity (layerStyle w a i) <= 5 # 100)
  /\ ((a < i < j)%Z ->
      opacity (layerStyle w a j) < opacity (layerStyle w a i)).
Proof.
  assert (forall k, (a < k)%Z ->
            opacity (layerStyle w a k) = (5 # 100) / inject_Z (k - a)
            /\ 1 <= inject_Z (k - a)) as Hahead.
  { intros k Hk. unfold layerStyle. simpl.
    destruct (Z.eqb_spec k a); [lia|]. destruct (Z.ltb_spec k a); [lia|].
    split; [reflexivity|].
    change 1 with (inject_Z 1). rewrite <- Zle_Qle. lia. }
  assert (forall d, 1 <= d -> 0 < (5 # 100) / d /\ (5 # 100) / d <= 5 # 100)
    as Hdiv.
  { intros d Hd. split.
    - apply Qlt_shift_div_l; lra.
    - apply Qle_shift_div_r; lra. }
  split; [|split; [|split]].
  - destruct (Z.lt_trichotomy i a) as [Hlt|[->|Hgt]].
    + unfold layerStyle. simpl.
      destruct (Z.eqb_spec i a); [lia|]. destruct (Z.ltb_spec i a); [|lia].
      lra.
    + unfold layerStyle. simpl. rewrite Z.eqb_refl. lra.
    + destruct (Hahead i Hgt) as (-> & Hd). destruct (Hdiv _ Hd). lra.
  - intros Hlt. unfold layerStyle. simpl.
    destruct (Z.eqb_spec i a); [lia|]. destruct (Z.ltb_spec i a); [|lia].
    reflexivity.
  - intros Hgt. destruct (Hahead i Hgt) as (-> & Hd). now apply Hdiv.
  - intros (Hi & Hj).
    destruct (Hahead i Hi) as (-> & Hdi).
    destruct (Hahead j ltac:(lia)) as (-> & Hdj).
    assert (inject_Z (i - a) < inject_Z (j - a)) as Hlt
      by (rewrite <- Zlt_Qlt; lia).
    apply Qlt_shift_div_l; [lra|].
    assert ((5 # 100) / inject_Z (j - a) * inject_Z (j - a) == 5 # 100) as E
      by (field; lra).
    assert (0 < (5 # 100) / inject_Z (j - a)) as Hpos by (apply Hdiv; lra).
    assert ((5 # 100) / inject_Z (j - a) * inject_Z (i - a)
            < (5 # 100) / inject_Z (j - a) * inject_Z (j - a)) as Hm.
    { apply Qmult_lt_l; assumption. }
    eapply Qlt_le_trans; [exact Hm|]. rewrite E. apply Qle_refl.
Qed.

Lemma layer_opacity_fades_witness :
  (1 < 2 < 4)%Z
  /\ opacity (layerStyle false 1 4) < opacity (layerStyle false 1 2).
Proof.
  assert (1 < 2 < 4)%Z as H by lia.
  split; [exact H|].
  exact (proj2 (proj2 (proj2 (layer_opacity_fades false 1 2 4))) H).
Defined.

Lemma goToLayer_moves w index s :
  index <> activeLayer s -> isWarping s = false ->
  goToLayer w index s <> s.
Proof.
  intros Hne Hidle E.
  assert (activeLayer (goToLayer w index s) = index) as Ha.
  { unfold goToLayer. rewrite Hidle. apply Z.eqb_neq in Hne. rewrite Hne.
    simpl. now destruct (w <? 768)%Z. }
  rewrite E in Ha. congruence.
Qed.

(** X15.  With the active index in range, the previous and next buttons
    are disabled exactly when their handlers would change nothing. *)
Theorem buttons_disabled_iff_noop n w s :
  in_range n s ->
  (prevDisabled s = true <-> handlePrev w s = s)
  /\ (nextDisabled n s = true <-> handleNext n w s = s).
Proof.
  unfold in_range, prevDisabled, nextDisabled, handlePrev, handleNext.
  intros Hs. split; split.
  - intros H. apply orb_true_iff in H.
    destruct (Z.ltb_spec 0 (activeLayer s)); [|reflexivity].
    apply goToLayer_noop. destruct H as [H|H]; [|now right].
    apply Z.eqb_eq in H. lia.
  - intros H. apply orb_true_iff.
    destruct (Z.ltb_spec 0 (activeLayer s)) as [Hpos|Hz].
    + right. destruct (isWarping s) eqn:Hw; [reflexivity|].
      exfalso. revert H. apply goToLayer_moves; [lia|assumption].
    + left. apply Z.eqb_eq. lia.
  - intros H. apply orb_true_iff in H.
    destruct (Z.ltb_spec (activeLayer s) (Z.of_nat n - 1)); [|reflexivity].
    apply goToLayer_noop. destruct H as [H|H]; [|now right].
    apply Z.eqb_eq in H. lia.
  - intros H. apply orb_true_iff.
    destruct (Z.ltb_spec (activeLayer s) (Z.of_nat n - 1)) as [Hlt|Hge].
    + right. destruct (isWarping s) eqn:Hw; [reflexivity|].
      exfalso. revert H. apply goToLayer_moves; [lia|assumption].
    + left. apply Z.eqb_eq. lia.
Qed.

Lemma buttons_disabled_iff_noop_witness :
  in_range 6 initial
  /\ (prevDisabled initial = true <-> handlePrev 1024 initial = initial).
Proof.
  assert (in_range 6 initial) as H by (unfold in_range; simpl; lia).
  split; [exact H|].
  exact (proj1 (@buttons_disabled_iff_noop 6 1024 initial H)).
Defined.

Lemma step_one_timer n w op s : one_timer s -> one_timer (step n w op s).
Proof.
  assert (forall index, one_timer s -> one_timer (goToLayer w index s)) as Hgo.
  { intros index Hs. unfold goToLayer.
    destruct ((index =? activeLayer s)%Z || isWarping s) eqn:E; [exact Hs|].
    apply orb_false_iff in E. destruct E as (_ & Hidle).
    destruct Hs as [(Hw & _)|(_ & Ht)]; [congruence|].
    left. destruct (w <? 768)%Z; simpl; rewrite Ht; auto. }
  intros Hs. destruct op as [index| | |]; simpl.
  - now apply Hgo.
  - unfold handleNext. destruct (_ <? _)%Z; [now apply Hgo|exact Hs].
  - unfold handlePrev. destruct (_ <? _)%Z; [now apply Hgo|exact Hs].
  - unfold warpTimeout. destruct Hs as [(Hw & Ht)|(Hw & Ht)]; rewrite Ht.
    + right. auto.
    + right. auto.
Qed.

(** X16.  Along every run of navigation operations and timer expiries from
    the initial state - whatever indices are passed - at most one warp
    timeout is pending, and one is pending exactly while the view is
    warping: a warp always has its reset scheduled and moves never overlap. *)
Theorem one_warp_timer_at_a_time n w ops :
  one_timer (run n w ops initial)
  /\ Forall one_timer (trace n w ops initial).
Proof.
  assert (one_timer initial) as H0 by (right; auto).
  revert H0. generalize initial as s.
  induction ops as [|op rest IH]; intros s Hs; simpl.
  - split; [exact Hs|constructor].
  - pose proof (step_one_timer n w op Hs) as Hs'.
    destruct (IH _ Hs') as (Hrun & Htrace).
    split; [exact Hrun|]. constructor; assumption.
Qed.

(** X17.  From an idle state with a layer ahead, next() followed by prev()
    is dropped while the warp lasts, and returns to the layer it started
    from once the timeout has expired. *)
Theorem next_then_prev_returns n w s :
  in_range n s ->
  (activeLayer s < Z.of_nat n - 1)%Z ->
  one_timer s ->
  isWarping s = false ->
  handlePrev w (handleNext n w s) = handleNext n w s
  /\ activeLayer (handleNext n w s) = (activeLayer s + 1)%Z
  /\ activeLayer (handlePrev w (warpTimeout (handleNext n w s)))
     = activeLayer s.
Proof.
  unfold in_range. intros Hs Hlt Ht Hidle.
  destruct Ht as [(Hw & _)|(_ & Ht)]; [congruence|].
  assert (handleNext n w s
          = (if (w <? 768)%Z
             then setIsNavOpen false
                    (setActiveLayer (activeLayer s + 1) (triggerWarp s))
             else setActiveLayer (activeLayer s + 1) (triggerWarp s))) as E.
  { unfold handleNext, goToLayer.
    destruct (Z.ltb_spec (activeLayer s) (Z.of_nat n - 1)); [|lia].
    rewrite Hidle. destruct (Z.eqb_spec (activeLayer s + 1) (activeLayer s));
      [lia|reflexivity]. }
  rewrite E. split; [|split].
  - unfold handlePrev.
    destruct (w <? 768)%Z; simpl;
      (destruct (_ <? _)%Z; [|reflexivity]);
      apply goToLayer_noop; now right.
  - now destruct (w <? 768)%Z.
  - destruct (w <? 768)%Z eqn:Ew; unfold warpTimeout; simpl; rewrite Ht;
      unfold handlePrev, goToLayer; simpl;
      (destruct (Z.ltb_spec 0 (activeLayer s + 1)); [|lia]);
      (destruct (Z.eqb_spec (activeLayer s + 1 - 1) (activeLayer s + 1));
         [lia|]); simpl; rewrite ?Ew; simpl; lia.
Qed.

Lemma next_then_prev_returns_witness :
  in_range 6 initial
  /\ (activeLayer initial < Z.of_nat 6 - 1)%Z
  /\ one_timer initial
  /\ isWarping initial = false
  /\ activeLayer (handlePrev 1024 (warpTimeout (handleNext 6 1024 initial)))
     = activeLayer initial.
Proof.
  assert (in_range 6 initial) as H0 by (unfold in_range; simpl; lia).
  assert (activeLayer initial < Z.of_nat 6 - 1)%Z as H1 by (simpl; lia).
  assert (one_timer initial) as H2 by (right; auto).
  assert (isWarping initial = false) as H3 by reflexivity.
  repeat (split; [assumption|]).
  exact (proj2 (proj2 (@next_then_prev_returns 6 1024 initial H0 H1 H2 H3))).
Defined.
End CompositorFacts.

(** ** More about navigation, proximity and the particle field *)

Section ProgressFacts.
Import Navigation Compositor.

(** X18.  With the active index in range the progress bar is wider than 0
    and at most 100 percent wide, and full exactly on the last layer. *)
Theorem progress_within_bar n s :
  in_range n s ->
  0 < progress n s /\ progress n s <= 100
  /\ (progress n s == 100 <-> activeLayer s = (Z.of_nat n - 1)%Z).
Proof.
  unfold in_range, progress. intros Hs.
  assert (0 < inject_Z (Z.of_nat n)) as Hn
    by (change 0 with (inject_Z 0); rewrite <- Zlt_Qlt; lia).
  assert (0 < inject_Z (activeLayer s + 1)) as Ha
    by (change 0 with (inject_Z 0); rewrite <- Zlt_Qlt; lia).
  assert (inject_Z (activeLayer s + 1) <= inject_Z (Z.of_nat n)) as Hle
    by (rewrite <- Zle_Qle; lia).
  set (a := inject_Z (activeLayer s + 1)) in *.
  set (b := inject_Z (Z.of_nat n)) in *.
  assert (a / b * b == a) as E by (field; lra).
  assert (0 < a / b) as Hq by (apply Qlt_shift_div_l; lra).
  assert (a / b <= 1) as Hq1 by (apply Qle_shift_div_r; lra).
  split; [lra|]. split; [lra|]. split.
  - intros H100. assert (a / b == 1) as H1 by lra.
    rewrite H1 in E. assert (b == a) as Hab by lra.
    unfold a, b in Hab. apply (proj1 (inject_Z_injective _ _)) in Hab. lia.
  - intros Hlast. assert (a == b) as Hab.
    { unfold a, b. rewrite Hlast. apply inject_Z_injective. f_equal. lia. }
    rewrite Hab. field. lra.
Qed.

Lemma progress_within_bar_witness :
  in_range 6 initial /\ 0 < progress 6 initial.
Proof.
  assert (in_range 6 initial) as H by (unfold in_range; simpl; lia).
  split; [exact H|].
  exact (proj1 (@progress_within_bar 6 initial H)).
Defined.
End ProgressFacts.

Section ProximityFacts.
Import Proximity.

(** X19.  While the pointer stays between the two thresholds (40 and 120
    inclusive) the visibility never changes, however long the sequence of
    moves. *)
Theorem no_flicker_inside_band xs v0 :
  Forall (fun x => near <= x /\ x <= far) xs ->
  visibilities false xs v0 = repeat v0 (List.length xs).
Proof.
  intros Hall. revert v0.
  induction Hall as [|x rest Hx _ IH]; intros v0;
    cbn [visibilities repeat List.length]; [reflexivity|].
  destruct (handleMouseMove_rule x v0) as (_ & _ & Hband).
  rewrite (Hband Hx). f_equal. apply IH.
Qed.

Lemma no_flicker_inside_band_witness :
  Forall (fun x => near <= x /\ x <= far) [40; 75; 120]
  /\ visibilities false [40; 75; 120] true = repeat true 3.
Proof.
  assert (Forall (fun x => near <= x /\ x <= far) [40; 75; 120]) as H
    by (repeat constructor; unfold near, far; vm_compute; discriminate).
  split; [exact H|].
  exact (@no_flicker_inside_band [40; 75; 120] true H).
Defined.

(** X20.  While the navigation panel is open the handler returns at once:
    no pointer move, wherever it is, changes the visibility. *)
Theorem open_panel_freezes_visibility xs v0 :
  visibilities true xs v0 = repeat v0 (List.length xs).
Proof.
  revert v0. induction xs as [|x rest IH]; intros v0; simpl; [reflexivity|].
  f_equal. apply IH.
Qed.
End ProximityFacts.

Section FlightFacts.
Import ParticleField Flight.

Lemma frames_flight W H flags : forall ps,
  frames W H flags ps = map (flight flags) ps.
Proof.
  induction flags as [|w rest IH]; intros ps.
  - simpl. now rewrite map_id.
  - rewrite frames_cons, IH, map_map. reflexivity.
Qed.

Lemma flight_snoc flags w p :
  flight (flags ++ [w]) p = move w (flight flags p).
Proof. unfold flight. now rewrite fold_left_app. Qed.

Lemma flight_keeps (P : Particle -> Prop) :
  (forall w p, P p -> P (move w p)) ->
  forall flags p, P p -> P (flight flags p).
Proof.
  intros Hmove flags. induction flags as [|w rest IH]; intros p Hp;
    [exact Hp|].
  simpl. apply IH. now apply Hmove.
Qed.

Lemma createParticles_fresh random W H :
  unit_interval random -> 0 <= W -> 0 <= H ->
  Forall (fresh W H) (createParticles random W H).
Proof.
  intros Hr HW HH. unfold createParticles. apply Forall_map, Forall_forall.
  intros i _. unfold fresh, newParticle. cbn [x y z size speed].
  destruct (Hr (5 * i)%nat) as (Hx0 & Hx1),
           (Hr (5 * i + 1)%nat) as (Hy0 & Hy1),
           (Hr (5 * i + 2)%nat), (Hr (5 * i + 3)%nat), (Hr (5 * i + 4)%nat).
  assert (forall r d, 0 <= r -> r < 1 -> 0 <= d ->
            - d <= (r - (1 # 2)) * d * 2 /\ (r - (1 # 2)) * d * 2 <= d)
    as Hspan.
  { intros r d Hr0 Hr1 Hd.
    assert (0 <= r * d) by (apply Qmult_le_0_compat; assumption).
    assert (0 <= (1 - r) * d) by (apply Qmult_le_0_compat; lra).
    assert ((r - (1 # 2)) * d * 2 == 2 * (r * d) - d) as -> by ring.
    assert ((1 - r) * d == d - r * d) as E by ring.
    rewrite E in *. split; lra. }
  split; [now apply Hspan|]. split; [now apply Hspan|].
  repeat split; lra.
Qed.

(** X21.  On a canvas of non-negative width and height, every particle
    [createParticles] makes lies within twice the canvas extent around the
    centre (bounds included), at a depth in [0, 2000), with size and speed
    in [1, 3] (bounds included). *)
Theorem created_particles_in_range random W H :
  unit_interval random -> 0 <= W -> 0 <= H ->
  Forall (fresh W H) (createParticles random W H)
  /\ List.length (createParticles random W H) = 150%nat.
Proof.
  intros Hr HW HH. split.
  - now apply createParticles_fresh.
  - apply createParticles_length.
Qed.

Lemma created_particles_in_range_witness :
  unit_interval Samples.zeros /\ 0 <= 800 /\ 0 <= 600
  /\ Forall (fresh 800 600) (createParticles Samples.zeros 800 600).
Proof.
  assert (unit_interval Samples.zeros) as H0
    by (intros n; unfold Samples.zeros; split; [apply Qle_refl|reflexivity]).
  assert (0 <= 800) as H1 by (vm_compute; discriminate).
  assert (0 <= 600) as H2 by (vm_compute; discriminate).
  repeat (split; [assumption|]).
  exact (proj1 (created_particles_in_range H0 H1 H2)).
Defined.

(** X22.  On a tick that does not recycle it, a particle with speed in
    [1, 3] comes closer by at least 1 and by at most 36 depth units. *)
Theorem depth_step_bounds w p :
  1 <= speed p -> speed p <= 3 ->
  0 < advance w p ->
  z (move w p) <= z p - 1 /\ z p - 36 <= z (move w p).
Proof.
  intros Hlo Hhi Hpos. simpl.
  destruct (recycle_cases (advance w p)) as [[Hle _]|[_ ->]]; [lra|].
  unfold advance. destruct (multiplier_cases w) as [[_ ->]|[_ ->]]; lra.
Qed.

Lemma depth_step_bounds_witness :
  1 <= speed Samples.arriving /\ speed Samples.arriving <= 3
  /\ 0 < advance false Samples.arriving
  /\ z (move false Samples.arriving) <= z Samples.arriving - 1.
Proof.
  assert (1 <= speed Samples.arriving) as H0 by (vm_compute; discriminate).
  assert (speed Samples.arriving <= 3) as H1 by (vm_compute; discriminate).
  assert (0 < advance false Samples.arriving) as H2 by reflexivity.
  repeat (split; [assumption|]).
  exact (proj1 (@depth_step_bounds false Samples.arriving H0 H1 H2)).
Defined.

Lemma flight_launched flags p : launched p -> launched (flight flags p).
Proof. apply flight_keeps. intros w q. apply move_launched. Qed.

Lemma descent flags : forall p,
  launched p -> never_recycled flags p ->
  z (flight flags p) <= z p - inject_Z (Z.of_nat (List.length flags)).
Proof.
  induction flags as [|w rest IH] using rev_ind; intros p Hp Hnever.
  - simpl. change (inject_Z 0) with 0. lra.
  - rewrite flight_snoc, length_app, Nat2Z.inj_add, inject_Z_plus.
    assert (never_recycled rest p) as Hrest.
    { intros before w' rest' E. apply (Hnever before w' (rest' ++ [w])).
      rewrite E, <- app_assoc. reflexivity. }
    specialize (IH p Hp Hrest).
    pose proof (Hnever rest w [] eq_refl) as Hpos.
    destruct (flight_launched rest Hp) as (_ & _ & Hs).
    simpl. destruct (recycle_cases (advance w (flight rest p)))
      as [[Hle _]|[_ ->]]; [lra|].
    unfold advance in *.
    change (inject_Z 1) with 1.
    destruct (multiplier_cases w) as [[_ Hm]|[_ Hm]]; rewrite Hm in *; lra.
Qed.

Lemma recycled_or_never flags : forall p,
  recycled_during flags p \/ never_recycled flags p.
Proof.
  induction flags as [|w rest IH] using rev_ind; intros p.
  - right. intros before w rest E. destruct before; discriminate.
  - destruct (IH p) as [(before & w0 & rest0 & E & Hle)|Hnever].
    + left. exists before, w0, (rest0 ++ [w]). split; [|exact Hle].
      rewrite E, <- app_assoc. reflexivity.
    + destruct (Qlt_le_dec 0 (advance w (flight rest p))) as [Hpos|Hle].
      * right. intros before w' rest' E.
        destruct rest' as [|r0 rest' _] using rev_ind.
        -- apply app_inj_tail in E. destruct E as (<- & <-). exact Hpos.
        -- rewrite app_comm_cons, app_assoc in E.
           apply app_inj_tail in E. destruct E as (E & _).
           now apply (Hnever before w' rest').
      * left. exists rest, w, []. auto.
Qed.

Lemma recycled_within flags p :
  launched p ->
  List.length flags = 2000%nat ->
  recycled_during flags p.
Proof.
  intros Hp Hlen.
  destruct (recycled_or_never flags p) as [Hyes|Hnever]; [exact Hyes|].
  exfalso. pose proof (descent Hp Hnever) as Hd.
  rewrite Hlen in Hd. change (inject_Z (Z.of_nat 2000)) with 2000 in Hd.
  destruct Hp as (_ & Hmax & _). unfold MAX_DEPTH in Hmax.
  assert (0 < z (flight flags p)) as Hpos.
  { destruct flags as [|w0 rest0] using rev_ind; [discriminate|].
    rewrite flight_snoc. apply move_positive. }
  lra.
Qed.

(** X23.  No particle escapes recycling within a run of the effect.  A
    run starts with [createParticles] and keeps one warp flag (a change of
    the flag starts a new run with new particles); in any 2000 consecutive
    frames of a run, every particle of the field is reset to the far plane
    at least once. *)
Theorem recycled_within_2000_frames random W H w k p :
  unit_interval random ->
  In p (createParticles random W H) ->
  In (flight (repeat w k) p)
     (frames W H (repeat w k) (createParticles random W H))
  /\ recycled_during (repeat w 2000) (flight (repeat w k) p).
Proof.
  intros Hr Hin. split.
  - rewrite frames_flight. now apply in_map.
  - apply recycled_within; [|apply repeat_length].
    apply flight_launched.
    pose proof (createParticles_launched W H Hr) as Hall.
    rewrite Forall_forall in Hall. now apply Hall.
Qed.

Lemma recycled_within_2000_frames_witness :
  unit_interval Samples.zeros
  /\ In (newParticle Samples.zeros 800 600 0)
       (createParticles Samples.zeros 800 600)
  /\ recycled_during (repeat false 2000)
       (flight (repeat false 3) (newParticle Samples.zeros 800 600 0)).
Proof.
  assert (unit_interval Samples.zeros) as H0
    by (intros n; unfold Samples.zeros; split; [apply Qle_refl|reflexivity]).
  assert (In (newParticle Samples.zeros 800 600 0)
            (createParticles Samples.zeros 800 600)) as H1.
  { unfold createParticles. apply in_map, in_seq.
    unfold particleCount. lia. }
  split; [exact H0|]. split; [exact H1|].
  exact (proj2 (@recycled_within_2000_frames _ 800 600 false 3%nat _ H0 H1)).
Defined.

Lemma move_sized w p : sized p -> sized (move w p).
Proof. auto. Qed.

(** X24.  Whatever [draw] paints after any number of frames lies strictly
    inside the canvas, has a positive radius and a fill opacity in
    [0, 1/2] (bounds included); the streak to the centre is painted
    exactly while warping, with an opacity in [0, 0.15]. *)
Theorem painted_dots_stay_on_canvas random W H flags w d :
  unit_interval random ->
  In (Some d)
     (snd (draw w W H (frames W H flags (createParticles random W H)))) ->
  (0 < px d /\ px d < W) /\ (0 < py d /\ py d < H)
  /\ 0 < radius d
  /\ (0 <= fillOpacity d /\ fillOpacity d <= 1 # 2)
  /\ match strokeOpacity d with
     | Some o => w = true /\ 0 <= o /\ o <= 15 # 100
     | None => w = false
     end.
Proof.
  intros Hr Hin. unfold draw in Hin. cbn [snd] in Hin.
  rewrite map_map in Hin. apply in_map_iff in Hin.
  destruct Hin as (p & Hproj & Hp).
  rewrite frames_flight in Hp. apply in_map_iff in Hp.
  destruct Hp as (p0 & <- & Hp0).
  pose proof (createParticles_launched W H Hr) as Hl.
  rewrite Forall_forall in Hl. specialize (Hl _ Hp0).
  assert (sized p0) as Hsz.
  { unfold createParticles in Hp0. apply in_map_iff in Hp0.
    destruct Hp0 as (i & <- & _). unfold sized, newParticle. cbn [size].
    destruct (Hr (5 * i + 3)%nat). lra. }
  pose proof (flight_launched flags Hl) as Hfl.
  pose proof (@flight_keeps sized move_sized flags _ Hsz) as Hfz.
  set (q := move w (flight flags p0)) in *.
  assert (0 < z q /\ z q <= 2000 /\ 1 <= size q) as (Hz0 & Hz1 & Hsq).
  { unfold q. split; [apply move_positive|]. split.
    - destruct Hfl as (_ & Hm & Hs). apply move_bounded; [assumption|lra].
    - exact Hfz. }
  destruct (project_drawn _ _ _ _ Hz0 Hproj) as ((A & B & C & D) & ->).
  cbn [px py radius fillOpacity strokeOpacity].
  assert (0 < FOCAL / z q) as Hk
    by (apply Qlt_shift_div_l; [assumption|unfold FOCAL; lra]).
  assert (0 <= (2000 - z q) / 2000 /\ (2000 - z q) / 2000 < 1) as (Ha0 & Ha1).
  { split.
    - apply Qle_shift_div_l; lra.
    - apply Qlt_shift_div_r; lra. }
  repeat split; try assumption; try lra.
  - apply Qmult_lt_0_compat; lra.
  - destruct w; repeat split; lra.
Qed.

Lemma painted_dots_stay_on_canvas_witness :
  unit_interval Samples.halves
  /\ In (Some (mkDot (12774400 # 31936) (9580800 # 31936) (16000 # 7984)
                  (4008 # 8000) (4008 # 16000) None))
       (snd (draw false 800 600
               (frames 800 600 [] (createParticles Samples.halves 800 600))))
  /\ 0 < radius (mkDot (12774400 # 31936) (9580800 # 31936) (16000 # 7984)
                  (4008 # 8000) (4008 # 16000) None).
Proof.
  assert (unit_interval Samples.halves) as H0
    by (intros n; unfold Samples.halves; split;
        [vm_compute; discriminate|reflexivity]).
  assert (In (Some (mkDot (12774400 # 31936) (9580800 # 31936) (16000 # 7984)
                  (4008 # 8000) (4008 # 16000) None))
            (snd (draw false 800 600
                    (frames 800 600 []
                       (createParticles Samples.halves 800 600)))))
    as Hin.
  { vm_compute. tauto. }
  split; [exact H0|]. split; [exact Hin|].
  exact (proj1 (proj2 (proj2
           (@painted_dots_stay_on_canvas _ 800 600 [] false _ H0 Hin)))).
Defined.
End FlightFacts.

(** ** A view in use *)

Section SessionFacts.
Import Lifecycle Session.

Lemma rerender_running before r :
  mounted r = true -> hasEntered r = true ->
  frame r = true -> resize r = true ->
  rerender before r
  = r \/ rerender before r
         = mkRuntime (nav r) true true (mousemove r) true true
             (S (ticks r)) (staleCalls r).
Proof.
  intros Hm He Hf Hr. unfold rerender.
  destruct (hasEntered r && _); [right|now left].
  unfold particle_setup, particle_cleanup. simpl. now rewrite Hm, He.
Qed.

Lemma deliver_running n w e r :
  Running r ->
  Running (deliver n w e r)
  /\ (ticks r + (if is_frame e then 1 else 0) <= ticks (deliver n w e r))%nat.
Proof.
  intros (Hm & He & Hf & Hr & Hmm & Hst & Ht).
  assert (forall nv, Compositor.one_timer nv ->
            let r' := rerender (Navigation.isWarping (nav r)) (with_nav nv r) in
            Running r' /\ (ticks r <= ticks r')%nat) as Hre.
  { intros nv Hnv.
    destruct (@rerender_running (Navigation.isWarping (nav r)) (with_nav nv r))
      as [E|E]; try assumption; cbv zeta; rewrite E; simpl;
      (split; [repeat split; assumption|lia]). }
  destruct e as [op| |]; simpl.
  - unfold navigate. rewrite Hm.
    destruct (Hre _ (step_one_timer n w op Ht)) as (H1 & H2).
    split; [exact H1|lia].
  - unfold expire. destruct (Navigation.timeouts (nav r)) eqn:E.
    + split; [repeat split; assumption|lia].
    + rewrite Hm.
      destruct (Hre _ (step_one_timer n w Navigation.Expire Ht)) as (H1 & H2).
      split; [exact H1|]. rewrite Nat.add_0_r. exact H2.
  - unfold animate. rewrite Hf. simpl.
    split; [repeat split; assumption|lia].
Qed.

Lemma enter_running : Running (enter mount).
Proof. repeat split. right. auto. Qed.

Lemma live_running n w es : forall r,
  Running r ->
  Running (live n w es r)
  /\ (ticks r + List.length (filter is_frame es) <= ticks (live n w es r))%nat.
Proof.
  induction es as [|e rest IH]; intros r Hr.
  - simpl. split; [exact Hr|lia].
  - destruct (deliver_running n w e Hr) as (Hr' & Ht).
    destruct (IH _ Hr') as (Hr'' & Ht').
    split; [exact Hr''|].
    change (live n w (e :: rest) r) with (live n w rest (deliver n w e r)).
    cbn [filter]. destruct (is_frame e); simpl in *; lia.
Qed.

Lemma deliverWith_context n w e r :
  deliverWith true n w e r = deliver n w e r.
Proof.
  destruct e as [op| |]; simpl; [reflexivity| |reflexivity].
  unfold expireWith, expire.
  destruct (Navigation.timeouts (nav r)); [reflexivity|].
  now destruct (mounted r).
Qed.

Lemma liveWith_context n w es : forall r,
  liveWith true n w es r = live n w es r.
Proof.
  induction es as [|e rest IH]; intros r; [reflexivity|].
  simpl. rewrite deliverWith_context. apply IH.
Qed.

Lemma rerenderWith_running c before r :
  RunningWith c r ->
  RunningWith c (rerenderWith c before r)
  /\ (ticks r <= ticks (rerenderWith c before r))%nat.
Proof.
  intros (Hm & He & Hf & Hr & Hmm & Hst & Ht & Hz). unfold rerenderWith.
  destruct (hasEntered r && _);
    [|split; [repeat split; assumption|lia]].
  destruct c.
  - unfold particle_setup, particle_cleanup. simpl.
    split; [repeat split; try assumption; discriminate|lia].
  - split; [repeat split; assumption|lia].
Qed.

Lemma deliverWith_running c n w e r :
  RunningWith c r ->
  RunningWith c (deliverWith c n w e r)
  /\ (ticks r + (if c && is_frame e then 1 else 0)
      <= ticks (deliverWith c n w e r))%nat.
Proof.
  intros Hrun.
  assert (forall nv, Compositor.one_timer nv -> RunningWith c (with_nav nv r))
    as Hnav.
  { intros nv Hnv. destruct Hrun as (Hm & He & Hf & Hr & Hmm & Hst & _ & Hz).
    repeat split; assumption. }
  pose proof Hrun as (Hm & He & Hf & Hr & Hmm & Hst & Ht & Hz).
  destruct e as [op| |]; cbn [deliverWith is_frame];
    rewrite ?andb_false_r, ?andb_true_r.
  - unfold navigateWith. rewrite Hm.
    destruct (@rerenderWith_running c (Navigation.isWarping (nav r)) _
                (Hnav _ (step_one_timer n w op Ht))) as (H1 & H2).
    split; [exact H1|]. simpl in H2. lia.
  - unfold expireWith. destruct (Navigation.timeouts (nav r)) eqn:E.
    + split; [exact Hrun|lia].
    + rewrite Hm.
      destruct (@rerenderWith_running c (Navigation.isWarping (nav r)) _
                  (Hnav _ (step_one_timer n w Navigation.Expire Ht)))
        as (H1 & H2).
      split; [exact H1|]. simpl in H2. rewrite Nat.add_0_r. exact H2.
  - unfold animate. rewrite Hf. destruct c.
    + simpl. split; [repeat split; try assumption; discriminate|lia].
    + split; [exact Hrun|lia].
Qed.

Lemma enterWith_running c : RunningWith c (enterWith c mount).
Proof.
  destruct c; repeat split; try discriminate; right; auto.
Qed.

Lemma liveWith_running c n w es : forall r,
  RunningWith c r ->
  RunningWith c (liveWith c n w es r)
  /\ (ticks r + (if c then List.length (filter is_frame es) else 0)
      <= ticks (liveWith c n w es r))%nat.
Proof.
  induction es as [|e rest IH]; intros r Hr.
  - simpl. split; [exact Hr|destruct c; lia].
  - destruct (deliverWith_running n w e Hr) as (Hr' & Ht).
    destruct (IH _ Hr') as (Hr'' & Ht').
    split; [exact Hr''|].
    change (liveWith c n w (e :: rest) r)
      with (liveWith c n w rest (deliverWith c n w e r)).
    cbn [filter]. destruct c, (is_frame e); simpl in *; lia.
Qed.

(** X25.  Once the view is entered, whatever navigation, timer expiries and
    animation frames follow: when the canvas has a 2D context, an animation
    frame is always pending and both listeners stay registered - the loop
    never stalls, and every frame the host delivers runs [draw]; when it
    has none, the particle effect returns early, so no frame is ever
    requested, no resize listener is registered and [draw] never runs,
    while the pointer listener is registered all the same. *)
Theorem animation_loop_never_stalls context n w es :
  mousemove (liveWith context n w es (enterWith context mount)) = true
  /\ frame (liveWith context n w es (enterWith context mount)) = context
  /\ resize (liveWith context n w es (enterWith context mount)) = context
  /\ (if context
      then (1 + List.length (filter is_frame es)
            <= ticks (liveWith context n w es (enterWith context mount)))%nat
      else ticks (liveWith context n w es (enterWith context mount)) = 0%nat)
  /\ liveWith true n w es (enterWith true mount) = live n w es (enter mount).
Proof.
  destruct (liveWith_running n w es (enterWith_running context))
    as ((_ & _ & Hf & Hr & Hm & _ & _ & Hz) & Ht).
  split; [exact Hm|]. split; [exact Hf|]. split; [exact Hr|]. split.
  - destruct context; [exact Ht|now apply Hz].
  - apply liveWith_context.
Qed.

Lemma after_quiet lates : forall r,
  mounted r = false -> frame r = false ->
  Navigation.timeouts (nav r) = 0%nat ->
  after lates r = r.
Proof.
  induction lates as [|e rest IH]; intros r Hm Hf Ht; [reflexivity|].
  assert (late e r = r) as E.
  { destruct e; simpl.
    - unfold expire. now rewrite Ht.
    - unfold animate. now rewrite Hf. }
  simpl. rewrite E. now apply IH.
Qed.

(** X26.  Tearing the view down leaves something behind exactly when it
    happens during a warp: unmounted while idle, nothing the host delivers
    afterwards changes anything; unmounted while warping, one timeout is
    still pending and its expiry calls the setter of the unmounted view.
    No frame is drawn after teardown in either case. *)
Theorem teardown_quiet_unless_warping n w es lates :
  (Navigation.isWarping (nav (live n w es (enter mount))) = false ->
   after lates (unmount (live n w es (enter mount)))
   = unmount (live n w es (enter mount)))
  /\ (Navigation.isWarping (nav (live n w es (enter mount))) = true ->
      Navigation.timeouts (nav (unmount (live n w es (enter mount)))) = 1%nat
      /\ staleCalls
           (after [LateTimeout] (unmount (live n w es (enter mount))))
         = 1%nat)
  /\ ticks (after lates (unmount (live n w es (enter mount))))
     = ticks (live n w es (enter mount)).
Proof.
  destruct (live_running n w es enter_running)
    as ((Hm & He & Hf & Hr & Hmm & Hst & Ht) & _).
  set (r := live n w es (enter mount)) in *.
  split; [|split].
  - intros Hidle. apply after_quiet; try reflexivity.
    destruct Ht as [(Hw & _)|(_ & H0)]; [congruence|exact H0].
  - intros Hwarp.
    destruct Ht as [(_ & H1)|(Hw & _)]; [|congruence].
    split; [exact H1|].
    simpl. unfold expire. simpl. rewrite H1. simpl. now rewrite Hst.
  - apply unmount_stops_ticks.
Qed.

Lemma teardown_quiet_unless_warping_witness :
  Navigation.isWarping
    (nav (live 6 1024 [Navigate (Navigation.GoTo 1); Frame] (enter mount)))
  = true
  /\ staleCalls
       (after [LateTimeout]
          (unmount
             (live 6 1024 [Navigate (Navigation.GoTo 1); Frame] (enter mount))))
     = 1%nat.
Proof.
  assert (Navigation.isWarping
            (nav (live 6 1024 [Navigate (Navigation.GoTo 1); Frame]
                    (enter mount))) = true) as H by reflexivity.
  split; [exact H|].
  exact (proj2 (proj1 (proj2
           (teardown_quiet_unless_warping 6 1024
              [Navigate (Navigation.GoTo 1); Frame] [])) H)).
Defined.
End SessionFacts.

(** ** The book list of the application *)

Section AppFacts.
Import LayerGrouper App.

(** X27.  Updating a book keeps the ids of the list, in order, and leaves
    every book with another id untouched at its position. *)
Theorem update_keeps_ids updated books :
  map id (updateBook updated books) = map id books
  /\ forall i b, nth_error books i = Some b -> id b <> id updated ->
       nth_error (updateBook updated books) i = Some b.
Proof.
  unfold updateBook. split.
  - induction books as [|b rest IH]; simpl; [reflexivity|].
    rewrite IH. f_equal.
    destruct (String.eqb_spec (id b) (id updated)); congruence.
  - intros i b Hnth Hne. rewrite nth_error_map, Hnth. simpl.
    apply String.eqb_neq in Hne. now rewrite Hne.
Qed.

Lemma update_keeps_ids_witness :
  nth_error Samples.twoTies 0 = Some Samples.lettered
  /\ id Samples.lettered <> id (Samples.book "b2" None)
  /\ nth_error (updateBook (Samples.book "b2" None) Samples.twoTies) 0
     = Some Samples.lettered.
Proof.
  assert (nth_error Samples.twoTies 0 = Some Samples.lettered) as H0
    by reflexivity.
  assert (id Samples.lettered <> id (Samples.book "b2" None)) as H1
    by discriminate.
  split; [exact H0|]. split; [exact H1|].
  exact (proj2 (update_keeps_ids (Samples.book "b2" None) Samples.twoTies)
           0%nat Samples.lettered H0 H1).
Defined.
End AppFacts.
